(** * The formal-integral evaluator of TARDIS ([montecarlo/src/integrator.c])

    A shallow embedding of the ray/shell geometry ([calculate_z],
    [populate_z], [calculate_p_values]), of the per-ray radiative recurrence
    and of the frequency-bin driver ([_formal_integral]), followed by the
    properties of the specification that concern them.

    Conventions of the embedding.
    - A C [double] is a real number of [R]: arithmetic is exact, there is no
      rounding, no infinity and no NaN.  Stdlib's [sqrt] is 0 on negative
      operands where C yields NaN, so every result that depends on the value
      of a square root is stated for rays with [0 <= p], for which the
      operand [r*r - p*p] taken by [calculate_z] is positive.
    - [int] and [int64_t] are integers of [Z].  Signed overflow is undefined
      in C, so the embedding describes the executions in which every count
      and index fits its type, and there the arithmetic of [Z] is that of
      the program; nothing wraps around.
    - A C array (a pointer, or a variable-length array on the stack) is a
      total map from indices to values.  It has no length of its own: the
      extent the program may use is carried by the count that goes with it,
      exactly as in the source.  What a variable-length array holds before the
      program writes to it is a parameter of the embedding. *)

From Stdlib Require Import Reals Lra Lia ZArith List Bool Permutation.
From Stdlib Require String.
Import ListNotations.

Local Open Scope Z_scope.
Local Open Scope R_scope.

(** ** Arrays and counted loops *)

Definition array (A : Type) : Type := Z -> A.

(** [a[i] = v]. *)
Definition upd {A : Type} (a : array A) (i : Z) (v : A) : array A :=
  fun j => if Z.eqb j i then v else a j.

(** The array whose first cells are the elements of [l]; the cells around
    them hold [d]. *)
Definition of_list {A : Type} (d : A) (l : list A) : array A :=
  fun i => if Z.ltb i 0 then d else nth (Z.to_nat i) l d.

(** [n] iterations of [body] at the indices [i], [i+1], ... *)
Fixpoint for_loop {St : Type} (body : Z -> St -> St) (i : Z) (n : nat) (s : St) : St :=
  match n with
  | O => s
  | S k => for_loop body (i + 1)%Z k (body i s)
  end.

(** [for (i = lo; i < hi; ++i) body]. *)
Definition for_range {St : Type} (lo hi : Z) (body : Z -> St -> St) (s : St) : St :=
  for_loop body lo (Z.to_nat (hi - lo)) s.

(** The indices [i], [i+1], ..., [n] of them. *)
Fixpoint Zrange (i : Z) (n : nat) : list Z :=
  match n with
  | O => []
  | S k => i :: Zrange (i + 1)%Z k
  end.

(** ** The storage model (the fields of [storage_model_t] the integrator reads) *)

Record storage_model_t : Type := mk_storage {
  r_inner : array R;
  r_outer : array R;
  no_of_shells : Z;
  inverse_time_explosion : R;
  line_list_nu : array R;
  no_of_lines : Z;
  line_lists_tau_sobolevs : array R
}.

(** ** Constants *)

Definition C_INV : R := 3.33564e-11.
Definition M_PI : R := acos (-1).
Definition KB_CGS : R := 1.3806488e-16.
Definition H_CGS : R := 6.62606957e-27.

(** ** Numerical integrator *)

Definition intensity_black_body (nu T : R) : R :=
  let beta_rad := 1 / (KB_CGS * T) in
  let coefficient := 2 * H_CGS * C_INV * C_INV in
  coefficient * nu * nu * nu / (exp (H_CGS * nu * beta_rad) - 1).

Definition trapezoid_integration (arr : array R) (h : R) (N : Z) : R :=
  let result := (arr 0%Z + arr (N - 1)%Z) / 2 in
  for_range 1 (N - 1) (fun idx result => result + arr idx) result * h.

(** ** Geometry *)

Definition calculate_z (r p inv_t : R) : R :=
  if Rgt_dec r p then sqrt (r * r - p * p) * C_INV * inv_t else 0.

(** The operand on which [calculate_z] calls [sqrt], when it calls it. *)
Definition calculate_z_sqrt_operand (r p : R) : option R :=
  if Rgt_dec r p then Some (r * r - p * p) else None.

(** One assignment pair [oz[idx] = v; oshell_id[idx] = shell]. *)
Record slot_write : Type := mk_write {
  w_idx : Z;
  w_z : R;
  w_shell : Z
}.

(** The two output arrays of [populate_z]. *)
Record crossings : Type := mk_crossings {
  oz : array R;
  oshell_id : array Z
}.

Definition store (b : crossings) (w : slot_write) : crossings :=
  {| oz := upd (oz b) (w_idx w) (w_z w);
     oshell_id := upd (oshell_id b) (w_idx w) (w_shell w) |}.

(** Body of the loop of the photosphere branch: the writes made so far are
    kept in program order. *)
Definition photosphere_body (storage : storage_model_t) (p : R)
    (i : Z) (ws : list slot_write) : list slot_write :=
  let r := r_outer storage in
  let inv_t := inverse_time_explosion storage in
  ws ++ [mk_write i (1 - calculate_z (r i) p inv_t) i].

(** Body of the loop of the other branch; the state is [offset] and the
    writes made so far. *)
Definition shell_body (storage : storage_model_t) (p : R)
    (i : Z) (st : Z * list slot_write) : Z * list slot_write :=
  let r := r_outer storage in
  let N := no_of_shells storage in
  let inv_t := inverse_time_explosion storage in
  let '(offset, ws) := st in
  let z := calculate_z (r i) p inv_t in
  if Req_dec_T z 0 then st
  else
    let offset := if Z.eqb offset (-1) then i else offset in
    let i_low := (N - i - 1)%Z in
    let i_up := (N + i - 2 * offset)%Z in
    (offset, ws ++ [mk_write i_low (1 + z) i; mk_write i_up (1 - z) i]).

(** The writes of [populate_z], in program order, and its return value. *)
Definition populate_z_trace (storage : storage_model_t) (p : R)
    : list slot_write * Z :=
  let N := no_of_shells storage in
  if Rle_dec p (r_inner storage 0%Z) then
    (for_range 0 N (photosphere_body storage p) [], N)
  else
    let '(offset, ws) := for_range 0 N (shell_body storage p) ((-1)%Z, []) in
    (ws, (2 * (N - offset))%Z).

(** [populate_z storage p oz oshell_id]: the return value and the arrays
    after the call. *)
Definition populate_z (storage : storage_model_t) (p : R) (b : crossings)
    : Z * crossings :=
  let '(ws, count) := populate_z_trace storage p in
  (count, fold_left store ws b).

Definition calculate_p_values (storage : storage_model_t) (N : Z)
    (opp : array R) : array R :=
  let R_max := r_outer storage (no_of_shells storage - 1)%Z in
  for_range 0 N (fun i opp => upd opp i (R_max / IZR (N - 1) * IZR i)) opp.

(** ** The frequency-line locator *)

(** Modelled from the spec: [line_search] is declared in [cmontecarlo.h] and
    defined outside this file.  Section 6 gives its contract: on a descending
    line list it returns the index of the first line with frequency at most
    the target, and the count when there is none. *)
Fixpoint locate_from (nu : array R) (nu_insert : R) (i : Z) (n : nat) : Z :=
  match n with
  | O => i
  | S k =>
      if Rle_dec (nu i) nu_insert then i
      else locate_from nu nu_insert (i + 1)%Z k
  end.

Definition line_search (nu : array R) (nu_insert : R) (number_of_lines : Z) : Z :=
  locate_from nu nu_insert 0%Z (Z.to_nat number_of_lines).

(** ** Radiative recurrence *)

(** The inner loop over lines: [j] is the distance of [pline] from
    [line_list_nu], and [pexp_tau], [patt_S_ul] advance with it from
    [exp_tau + offset] and [att_S_ul + offset]; [n] bounds the iterations
    left before [pline] reaches [line_list_nu + size_line]. *)
Fixpoint line_walk (line exp_tau att_S_ul : array R) (nu_end : R) (offset : Z)
    (j : Z) (n : nat) (I : R) : R :=
  match n with
  | O => I
  | S k =>
      if Rlt_dec (line j) nu_end then I
      else line_walk line exp_tau att_S_ul nu_end offset (j + 1)%Z k
             (I * exp_tau (offset + j)%Z + att_S_ul (offset + j)%Z)
  end.

(** Body of the loop over intersections, acting on the intensity of the ray. *)
Definition segment_body (storage : storage_model_t) (att_S_ul : array R) (nu : R)
    (exp_tau z : array R) (shell_id : array Z) (i : Z) (I : R) : R :=
  let size_line := no_of_lines storage in
  let nu_start := nu * z i in
  let nu_end := nu * z (i + 1)%Z in
  let offset := (shell_id i * size_line)%Z in
  let idx_nu_start := line_search (line_list_nu storage) nu_start size_line in
  line_walk (line_list_nu storage) exp_tau att_S_ul nu_end offset
    idx_nu_start (Z.to_nat (size_line - idx_nu_start)) I.

(** ** The driver *)

(** The variable-length arrays of one thread. *)
Record scratch : Type := mk_scratch {
  I_nu : array R;
  z : array R;
  exp_tau : array R;
  shell_id : array Z;
  pp : array R
}.

(** Initialisation of a thread: [exp_tau] and [pp] are filled; [I_nu], [z]
    and [shell_id] keep what the stack held. *)
Definition thread_setup (storage : storage_model_t) (N : Z) (s : scratch) : scratch :=
  let size_tau := (no_of_lines storage * no_of_shells storage)%Z in
  {| I_nu := I_nu s;
     z := z s;
     exp_tau := for_range 0 size_tau
                  (fun i e => upd e i (exp (- line_lists_tau_sobolevs storage i)))
                  (exp_tau s);
     shell_id := shell_id s;
     pp := calculate_p_values storage N (pp s) |}.

(** The intensity of the ray [p] at frequency [nu] before it is scaled by
    [p], computed on the intersection arrays [b] left by [populate_z]. *)
Definition ray_intensity (storage : storage_model_t) (iT : R) (att_S_ul : array R)
    (nu p : R) (exp_tau : array R) (size_z : Z) (b : crossings) : R :=
  let R_ph := r_inner storage 0%Z in
  let I0 := if Rle_dec p R_ph then intensity_black_body nu iT else 0 in
  for_range 0 (size_z - 1)
    (segment_body storage att_S_ul nu exp_tau (oz b) (oshell_id b)) I0.

(** Body of the loop over impact parameters. *)
Definition ray_body (storage : storage_model_t) (iT : R) (att_S_ul : array R)
    (nu : R) (p_idx : Z) (s : scratch) : scratch :=
  let p := pp s p_idx in
  let '(size_z, b) := populate_z storage p (mk_crossings (z s) (shell_id s)) in
  let I := ray_intensity storage iT att_S_ul nu p (exp_tau s) size_z b in
  {| I_nu := upd (I_nu s) p_idx (I * p);
     z := oz b;
     exp_tau := exp_tau s;
     shell_id := oshell_id b;
     pp := pp s |}.

(** Body of the loop over frequency bins, on the arrays of the executing
    thread and the shared output [L]. *)
Definition freq_body (storage : storage_model_t) (iT : R) (inu att_S_ul : array R)
    (N : Z) (nu_idx : Z) (st : scratch * array R) : scratch * array R :=
  let '(s, L) := st in
  let R_max := r_outer storage (no_of_shells storage - 1)%Z in
  let nu := inu nu_idx in
  let s := for_range 1 N (ray_body storage iT att_S_ul nu) s in
  (s, upd L nu_idx
        (8 * M_PI * M_PI * trapezoid_integration (I_nu s) (R_max / IZR N) N)).

(** One thread of the parallel region: [s0] is what its stack arrays hold on
    entry, [bins] the frequency indices the work-sharing loop hands to it, in
    the order it executes them. *)
Definition thread_run (storage : storage_model_t) (iT : R) (inu att_S_ul : array R)
    (N : Z) (L : array R) (th : scratch * list Z) : array R :=
  let '(s0, bins) := th in
  snd (fold_left (fun st nu_idx => freq_body storage iT inu att_S_ul N nu_idx st)
         bins (thread_setup storage N s0, L)).

(** A team of threads shares the frequency bins when every index of
    [0, inu_size) is handed to exactly one of them, once. *)
Definition shares_bins (inu_size : Z) (team : list (scratch * list Z)) : Prop :=
  forall nu_idx : Z,
    count_occ Z.eq_dec (concat (map snd team)) nu_idx
    = if (0 <=? nu_idx)%Z && (nu_idx <? inu_size)%Z then 1%nat else 0%nat.

(** The output array at the end of the parallel region.  The threads write
    disjoint cells of [L], so the order in which their writes are replayed
    is immaterial; [L] comes zeroed from [calloc]. *)
Definition formal_integral_spectrum (storage : storage_model_t) (iT : R)
    (inu : array R) (att_S_ul : array R) (N : Z)
    (team : list (scratch * list Z)) : array R :=
  fold_left (thread_run storage iT inu att_S_ul N) team (fun _ => 0).

(** How a call of the evaluator ends.  The C function has a single exit,
    [return L]: it checks no argument, asserts nothing and has no error
    value, so the embedding never builds [Failure]; the constructor is there
    for statements about failing.  [Undefined] stands for a call that
    declares a variable-length array of non-positive size or accesses an
    array outside its extent: C leaves its behaviour undefined, and a real
    run may crash or return anything. *)
Inductive outcome : Type :=
| Spectrum (L : array R)
| Failure (msg : String.string)
| Undefined.

(** The variable-length arrays [I_nu[N]], [pp[N]], [z[2 * no_of_shells]],
    [shell_id[2 * no_of_shells]] and [exp_tau[size_tau]] need a positive
    size.  With these sizes positive the reads [r_inner[0]],
    [r_outer[size_shell - 1]], the initialisation loops and
    [trapezoid_integration] stay inside their arrays. *)
Definition vla_sizes_ok (storage : storage_model_t) (N : Z) : bool :=
  (0 <? N)%Z && (0 <? 2 * no_of_shells storage)%Z
  && (0 <? no_of_lines storage * no_of_shells storage)%Z.

(** The loop over intersections reads [z[i]], [z[i+1]] and [shell_id[i]] for
    [0 <= i < size_z - 1], inside the arrays only when
    [size_z <= 2 * no_of_shells], and points [pexp_tau] and [patt_S_ul] into
    the row [shell_id[i]] of the tables, which exists only for
    [0 <= shell_id[i] < no_of_shells]. *)
Definition record_in_bounds (storage : storage_model_t) (size_z : Z)
    (b : crossings) : bool :=
  (size_z - 1 <=? 0)%Z
  || ((size_z <=? 2 * no_of_shells storage)%Z
      && forallb (fun i => (0 <=? oshell_id b i)%Z
                           && (oshell_id b i <? no_of_shells storage)%Z)
           (Zrange 0 (Z.to_nat (size_z - 1)))).

(** The accesses of one iteration of the loop over impact parameters
    ([populate_z] itself writes inside the arrays whatever its input). *)
Definition ray_in_bounds (storage : storage_model_t) (p_idx : Z) (s : scratch)
    : bool :=
  let '(size_z, b) :=
    populate_z storage (pp s p_idx) (mk_crossings (z s) (shell_id s)) in
  record_in_bounds storage size_z b.

(** The accesses of the rays of one frequency bin, the arrays of the thread
    being carried from ray to ray. *)
Definition bin_in_bounds (storage : storage_model_t) (iT : R)
    (att_S_ul : array R) (nu : R) (N : Z) (s : scratch) : bool :=
  snd (for_range 1 N
         (fun p_idx (st : scratch * bool) =>
            (ray_body storage iT att_S_ul nu p_idx (fst st),
             snd st && ray_in_bounds storage p_idx (fst st)))
         (s, true)).

(** The accesses of one thread: its bins index [inu] and [L] inside
    [0, inu_size), and each of them keeps its rays in bounds. *)
Definition thread_in_bounds (storage : storage_model_t) (iT : R)
    (inu : array R) (inu_size : Z) (att_S_ul : array R) (N : Z)
    (th : scratch * list Z) : bool :=
  snd (fold_left
         (fun (st : scratch * bool) nu_idx =>
            (for_range 1 N (ray_body storage iT att_S_ul (inu nu_idx)) (fst st),
             snd st && (0 <=? nu_idx)%Z && (nu_idx <? inu_size)%Z
             && bin_in_bounds storage iT att_S_ul (inu nu_idx) N (fst st)))
         (snd th) (thread_setup storage N (fst th), true)).

Definition _formal_integral (storage : storage_model_t) (iT : R)
    (inu : array R) (inu_size : Z) (att_S_ul : array R) (N : Z)
    (team : list (scratch * list Z)) : outcome :=
  if vla_sizes_ok storage N
     && forallb (thread_in_bounds storage iT inu inu_size att_S_ul N) team
  then Spectrum (formal_integral_spectrum storage iT inu att_S_ul N team)
  else Undefined.

(** The run of a single thread over all the bins in increasing order. *)
Definition sequential_team (inu_size : Z) (s0 : scratch) : list (scratch * list Z) :=
  [(s0, Zrange 0 (Z.to_nat inu_size))].

(** ** Definitions that follow the words of the specification *)

(** The index of the first shell the ray [p] intersects, that is the first
    [i] of [0, N) with a non-zero [z_i]; [N] when there is none. *)
Fixpoint first_intersected_from (storage : storage_model_t) (p : R)
    (i : Z) (n : nat) : Z :=
  match n with
  | O => i
  | S k =>
      if Req_dec_T (calculate_z (r_outer storage i) p
                      (inverse_time_explosion storage)) 0
      then first_intersected_from storage p (i + 1)%Z k
      else i
  end.

Definition first_intersected (storage : storage_model_t) (p : R) : Z :=
  first_intersected_from storage p 0%Z (Z.to_nat (no_of_shells storage)).

(** The index of the first shell with [r_outer > p]; [N] when there is none. *)
Fixpoint first_shell_above_from (storage : storage_model_t) (p : R)
    (i : Z) (n : nat) : Z :=
  match n with
  | O => i
  | S k =>
      if Rgt_dec (r_outer storage i) p then i
      else first_shell_above_from storage p (i + 1)%Z k
  end.

Definition first_shell_above (storage : storage_model_t) (p : R) : Z :=
  first_shell_above_from storage p 0%Z (Z.to_nat (no_of_shells storage)).

(** The half chord of shell [i] on the ray [p]. *)
Definition z_of (storage : storage_model_t) (p : R) (i : Z) : R :=
  calculate_z (r_outer storage i) p (inverse_time_explosion storage).

(** Shell model invariant of section 3: outer radii strictly increasing. *)
Definition increasing_radii (storage : storage_model_t) : Prop :=
  forall i j : Z,
    (0 <= i)%Z -> (i < j)%Z -> (j < no_of_shells storage)%Z ->
    r_outer storage i < r_outer storage j.

(** Every outer radius is below the light-distance unit [c * t_exp]. *)
Definition below_light_distance (storage : storage_model_t) : Prop :=
  0 < inverse_time_explosion storage /\
  forall i : Z,
    (0 <= i)%Z -> (i < no_of_shells storage)%Z ->
    r_outer storage i * C_INV * inverse_time_explosion storage < 1.

(** Line list sorted in descending order. *)
Definition descending_lines (storage : storage_model_t) : Prop :=
  forall i j : Z,
    (0 <= i)%Z -> (i < j)%Z -> (j < no_of_lines storage)%Z ->
    line_list_nu storage j < line_list_nu storage i.

(** The Doppler frequency window of a segment: the rest frequencies from
    [nu_end] up to [nu_start], both ends included (the locator starts at the
    first line at or below [nu_start], the walk stops at the first line below
    [nu_end]). *)
Definition in_window (line : array R) (nu_end nu_start : R) (j : Z) : bool :=
  if Rle_dec nu_end (line j) then
    if Rle_dec (line j) nu_start then true else false
  else false.

(** The lines of the window of segment [i], in descending-frequency order. *)
Definition window_lines (storage : storage_model_t) (nu : R) (z : array R)
    (i : Z) : list Z :=
  filter (in_window (line_list_nu storage) (nu * z (i + 1)%Z) (nu * z i))
    (Zrange 0 (Z.to_nat (no_of_lines storage))).

(** One line crossing in the table row of [shell]:
    [I <- I * exp_tau[line] + source_function[line]]. *)
Definition cross_line (storage : storage_model_t) (exp_tau att_S_ul : array R)
    (shell : Z) (I : R) (line : Z) : R :=
  I * exp_tau (shell * no_of_lines storage + line)%Z
  + att_S_ul (shell * no_of_lines storage + line)%Z.

(** What the recurrence of section 4.2 does to the intensity on segment [i]
    of a record: it crosses the lines of the segment's window, in
    descending-frequency order, in the table row of the segment's shell. *)
Definition segment_spec (storage : storage_model_t) (att_S_ul : array R)
    (nu : R) (exp_tau : array R) (b : crossings) (I : R) (i : Z) : R :=
  fold_left (cross_line storage exp_tau att_S_ul (oshell_id b i))
    (window_lines storage nu (oz b) i) I.

(** The recurrence along a whole record: from the seed, the segments
    [0 .. size_z - 2] in order. *)
Definition ray_spec (storage : storage_model_t) (iT : R) (att_S_ul : array R)
    (nu p : R) (exp_tau : array R) (size_z : Z) (b : crossings) : R :=
  fold_left (segment_spec storage att_S_ul nu exp_tau b)
    (Zrange 0 (Z.to_nat (size_z - 1)))
    (if Rle_dec p (r_inner storage 0%Z) then intensity_black_body nu iT else 0).

(** Invalid geometry input, as section 7 lists it: shell radii that are not
    strictly increasing, fewer than two impact-parameter samples, or an
    empty line list. *)
Definition monotonic_radii (storage : storage_model_t) : bool :=
  forallb (fun i => if Rlt_dec (r_outer storage i) (r_outer storage (i + 1)%Z)
                    then true else false)
    (Zrange 0 (Z.to_nat (no_of_shells storage - 1))).

Definition invalid_geometry (storage : storage_model_t) (N : Z) : bool :=
  negb (monotonic_radii storage) || (N <? 2)%Z || (no_of_lines storage <=? 0)%Z.

(** The write of the photosphere branch for shell [i]. *)
Definition near_write (storage : storage_model_t) (p : R) (i : Z) : slot_write :=
  mk_write i (1 - z_of storage p i) i.

(** The two writes of the other branch for shell [i], far side first. *)
Definition shell_writes (storage : storage_model_t) (p : R) (offset i : Z)
    : list slot_write :=
  let N := no_of_shells storage in
  [mk_write (N - i - 1) (1 + z_of storage p i) i;
   mk_write (N + i - 2 * offset) (1 - z_of storage p i) i].

(** ** Sample inputs *)

(** The two-shell model of the end-to-end scenario of section 8, with three
    lines and an explosion time of one second. *)
Definition two_shells : storage_model_t :=
  {| r_inner := of_list 0 [1; 2];
     r_outer := of_list 0 [2; 3];
     no_of_shells := 2;
     inverse_time_explosion := 1;
     line_list_nu := of_list 0 [30; 20; 10];
     no_of_lines := 3;
     line_lists_tau_sobolevs := of_list 0 [] |}.

(** One shell between radii 1 and 2, no line. *)
Definition one_shell : storage_model_t :=
  {| r_inner := of_list 0 [1];
     r_outer := of_list 0 [2];
     no_of_shells := 1;
     inverse_time_explosion := 1;
     line_list_nu := of_list 0 [];
     no_of_lines := 0;
     line_lists_tau_sobolevs := of_list 0 [] |}.

(** One shell between radii 1 and 5 whose expansion is faster than light:
    [r_outer * C_INV * inv_t] is about 16.7. *)
Definition fast_shell : storage_model_t :=
  {| r_inner := of_list 0 [1];
     r_outer := of_list 0 [5];
     no_of_shells := 1;
     inverse_time_explosion := 100000000000;
     line_list_nu := of_list 0 [];
     no_of_lines := 0;
     line_lists_tau_sobolevs := of_list 0 [] |}.

(** Two shells whose outer radii decrease, and no line. *)
Definition bad_shells : storage_model_t :=
  {| r_inner := of_list 0 [1; 3];
     r_outer := of_list 0 [3; 2];
     no_of_shells := 2;
     inverse_time_explosion := 1;
     line_list_nu := of_list 0 [];
     no_of_lines := 0;
     line_lists_tau_sobolevs := of_list 0 [] |}.

(** Two shells inside the photosphere radius, three lines: every ray of the
    driver hits the photosphere. *)
Definition deep_shells : storage_model_t :=
  {| r_inner := of_list 0 [5; 2];
     r_outer := of_list 0 [2; 3];
     no_of_shells := 2;
     inverse_time_explosion := 1;
     line_list_nu := of_list 0 [30; 20; 10];
     no_of_lines := 3;
     line_lists_tau_sobolevs := of_list 0 [] |}.

(** Output arrays of [populate_z] holding 0 in every cell. *)
Definition blank : crossings :=
  {| oz := fun _ => 0; oshell_id := fun _ => 0%Z |}.

(** Stack arrays holding [g] in every cell. *)
Definition stack_of (g : R) : scratch :=
  {| I_nu := fun _ => g;
     z := fun _ => g;
     exp_tau := fun _ => g;
     shell_id := fun _ => 0%Z;
     pp := fun _ => g |}.

(** * Properties *)

(** ** Arrays and loops *)

(** Turns the boolean comparisons of [Z] among the hypotheses into
    propositions [lia] can use. *)
Ltac zbool :=
  repeat match goal with
    | H : (_ <=? _)%Z = true |- _ => apply Z.leb_le in H
    | H : (_ <=? _)%Z = false |- _ => apply Z.leb_gt in H
    | H : (_ <? _)%Z = true |- _ => apply Z.ltb_lt in H
    | H : (_ <? _)%Z = false |- _ => apply Z.ltb_ge in H
    | H : (_ =? _)%Z = true |- _ => apply Z.eqb_eq in H
    | H : (_ =? _)%Z = false |- _ => apply Z.eqb_neq in H
    end.

Lemma upd_same {A : Type} (a : array A) (i : Z) (v : A) : upd a i v i = v.
Proof. unfold upd. now rewrite Z.eqb_refl. Qed.

Lemma upd_other {A : Type} (a : array A) (i j : Z) (v : A) :
  j <> i -> upd a i v j = a j.
Proof. intros H. unfold upd. now apply Z.eqb_neq in H; rewrite H. Qed.

Lemma for_loop_S {St : Type} (body : Z -> St -> St) (i : Z) (n : nat) (s : St) :
  for_loop body i (S n) s = for_loop body (i + 1)%Z n (body i s).
Proof. reflexivity. Qed.

Lemma for_loop_snoc {St : Type} (body : Z -> St -> St) (n : nat) :
  forall (i : Z) (s : St),
    for_loop body i (S n) s = body (i + Z.of_nat n)%Z (for_loop body i n s).
Proof.
  induction n as [|n IH]; intros i s.
  - simpl. now rewrite Z.add_0_r.
  - change (for_loop body i (S (S n)) s)
      with (for_loop body (i + 1)%Z (S n) (body i s)).
    rewrite IH. simpl for_loop at 2.
    replace (i + 1 + Z.of_nat n)%Z with (i + Z.of_nat (S n))%Z by lia.
    reflexivity.
Qed.

(** A property kept by every iteration is kept by the loop. *)
Lemma for_loop_invariant {St : Type} (P : St -> Prop) (body : Z -> St -> St)
    (n : nat) :
  forall (i : Z) (s : St),
    P s ->
    (forall (k : Z) (t : St),
        (i <= k)%Z -> (k < i + Z.of_nat n)%Z -> P t -> P (body k t)) ->
    P (for_loop body i n s).
Proof.
  induction n as [|n IH]; intros i s Hs Hstep; simpl.
  - exact Hs.
  - apply IH.
    + apply Hstep; [lia | lia | exact Hs].
    + intros k t Hk1 Hk2. apply Hstep; lia.
Qed.

Lemma Zrange_length (n : nat) : forall i : Z, length (Zrange i n) = n.
Proof. induction n as [|n IH]; intros i; simpl; [reflexivity | now rewrite IH]. Qed.

Lemma Zrange_In (n : nat) :
  forall i k : Z, In k (Zrange i n) <-> (i <= k)%Z /\ (k < i + Z.of_nat n)%Z.
Proof.
  induction n as [|n IH]; intros i k; simpl.
  - split; [tauto | lia].
  - rewrite IH. lia.
Qed.

Lemma Zrange_snoc (n : nat) :
  forall i : Z, Zrange i (S n) = Zrange i n ++ [(i + Z.of_nat n)%Z].
Proof.
  induction n as [|n IH]; intros i.
  - simpl. now rewrite Z.add_0_r.
  - change (Zrange i (S (S n))) with (i :: Zrange (i + 1)%Z (S n)).
    rewrite IH. simpl.
    replace (i + 1 + Z.of_nat n)%Z with (i + Z.pos (Pos.of_succ_nat n))%Z by lia.
    reflexivity.
Qed.

(** ** Constants *)

Lemma C_INV_pos : 0 < C_INV.
Proof. unfold C_INV. lra. Qed.

Lemma M_PI_is_PI : M_PI = PI.
Proof.
  unfold M_PI. replace (-1) with (- (1)) by lra.
  rewrite acos_opp, acos_1. lra.
Qed.

Lemma M_PI_pos : 0 < M_PI.
Proof. rewrite M_PI_is_PI. apply PI_RGT_0. Qed.

(** ** [calculate_z] *)

Lemma calculate_z_miss (r p inv_t : R) : r <= p -> calculate_z r p inv_t = 0.
Proof. intros H. unfold calculate_z. destruct (Rgt_dec r p); [lra | reflexivity]. Qed.

Lemma calculate_z_hit (r p inv_t : R) :
  r > p -> calculate_z r p inv_t = sqrt (r * r - p * p) * C_INV * inv_t.
Proof. intros H. unfold calculate_z. destruct (Rgt_dec r p); [reflexivity | lra]. Qed.

(** On a ray with [0 <= p] the square root is taken of a positive number. *)
Lemma calculate_z_operand_pos (r p : R) :
  0 <= p -> forall x : R, calculate_z_sqrt_operand r p = Some x -> 0 < x.
Proof.
  intros Hp x. unfold calculate_z_sqrt_operand.
  destruct (Rgt_dec r p) as [H|H]; [|discriminate].
  intros E. injection E as <-. nra.
Qed.

Lemma calculate_z_pos (r p inv_t : R) :
  0 <= p -> p < r -> 0 < inv_t -> 0 < calculate_z r p inv_t.
Proof.
  intros Hp Hr Ht. rewrite calculate_z_hit by lra.
  assert (0 < sqrt (r * r - p * p)) by (apply sqrt_lt_R0; nra).
  pose proof C_INV_pos.
  apply Rmult_lt_0_compat; [apply Rmult_lt_0_compat|]; assumption.
Qed.

Lemma calculate_z_nonneg (r p inv_t : R) :
  0 <= inv_t -> 0 <= calculate_z r p inv_t.
Proof.
  intros Ht. unfold calculate_z. destruct (Rgt_dec r p); [|lra].
  pose proof C_INV_pos. pose proof (sqrt_pos (r * r - p * p)).
  apply Rmult_le_pos; [apply Rmult_le_pos|]; lra.
Qed.

Lemma calculate_z_increasing (r1 r2 p inv_t : R) :
  0 <= p -> p < r1 -> r1 < r2 -> 0 < inv_t ->
  calculate_z r1 p inv_t < calculate_z r2 p inv_t.
Proof.
  intros Hp H1 H2 Ht. rewrite !calculate_z_hit by lra.
  assert (sqrt (r1 * r1 - p * p) < sqrt (r2 * r2 - p * p))
    by (apply sqrt_lt_1; nra).
  pose proof C_INV_pos.
  apply Rmult_lt_compat_r; [assumption|].
  apply Rmult_lt_compat_r; assumption.
Qed.

Lemma calculate_z_below_one (r p inv_t : R) :
  0 <= p -> p < r -> 0 < inv_t -> r * C_INV * inv_t < 1 ->
  calculate_z r p inv_t < 1.
Proof.
  intros Hp Hr Ht Hc. rewrite calculate_z_hit by lra.
  assert (sqrt (r * r - p * p) <= r).
  { apply Rle_trans with (sqrt (r * r)); [apply sqrt_le_1; nra|].
    rewrite sqrt_square; lra. }
  pose proof C_INV_pos.
  apply Rle_lt_trans with (r * C_INV * inv_t); [|assumption].
  apply Rmult_le_compat_r; [lra|].
  apply Rmult_le_compat_r; lra.
Qed.

(** C9.  [calculate_z r p inv_t] is exactly 0 whenever [r <= p], the tangent
    case [r = p] included, and in that case no square root is taken at all
    (so none of a negative number, and no NaN can arise); whenever [r > p]
    it is [sqrt (r*r - p*p) * C_INV * inv_t]. *)
Theorem calculate_z_degenerate_tangent (r p inv_t : R) :
  (r <= p ->
   calculate_z r p inv_t = 0 /\ calculate_z_sqrt_operand r p = None) /\
  (r > p ->
   calculate_z r p inv_t = sqrt (r * r - p * p) * C_INV * inv_t).
Proof.
  split; intros H.
  - split; [now apply calculate_z_miss|].
    unfold calculate_z_sqrt_operand. destruct (Rgt_dec r p); [lra | reflexivity].
  - now apply calculate_z_hit.
Qed.

Lemma calculate_z_degenerate_tangent_witness :
  (calculate_z 3 3 1 = 0 /\ calculate_z_sqrt_operand 3 3 = None) /\
  calculate_z 5 3 1 = sqrt (5 * 5 - 3 * 3) * C_INV * 1.
Proof.
  split.
  - apply (proj1 (calculate_z_degenerate_tangent 3 3 1)). lra.
  - apply (proj2 (calculate_z_degenerate_tangent 5 3 1)). lra.
Defined.

(** ** Write traces and the arrays they leave *)

Lemma for_loop_split {St : Type} (body : Z -> St -> St) (n m : nat) :
  forall (i : Z) (s : St),
    for_loop body i (n + m) s
    = for_loop body (i + Z.of_nat n)%Z m (for_loop body i n s).
Proof.
  induction n as [|n IH]; intros i s.
  - simpl. now rewrite Z.add_0_r.
  - change (for_loop body i (S n + m) s)
      with (for_loop body (i + 1)%Z (n + m) (body i s)).
    rewrite IH. simpl for_loop at 2.
    replace (i + 1 + Z.of_nat n)%Z with (i + Z.of_nat (S n))%Z by lia.
    reflexivity.
Qed.

(** A loop that only appends to a log appends the writes of its iterations
    in index order. *)
Lemma for_loop_log {A : Type} (f : Z -> list A) (n : nat) :
  forall (i : Z) (ws : list A),
    for_loop (fun k ws => ws ++ f k) i n ws = ws ++ flat_map f (Zrange i n).
Proof.
  induction n as [|n IH]; intros i ws; simpl.
  - now rewrite app_nil_r.
  - rewrite IH. now rewrite <- app_assoc.
Qed.

Lemma fold_store_untouched (ws : list slot_write) :
  forall (b : crossings) (j : Z),
    ~ In j (map w_idx ws) ->
    oz (fold_left store ws b) j = oz b j /\
    oshell_id (fold_left store ws b) j = oshell_id b j.
Proof.
  induction ws as [|w ws IH]; intros b j Hj; simpl.
  - split; reflexivity.
  - simpl in Hj. destruct (IH (store b w) j) as [E1 E2]; [tauto|].
    rewrite E1, E2. unfold store; simpl.
    rewrite !upd_other by (intros ->; tauto). split; reflexivity.
Qed.

Lemma fold_store_lookup (ws : list slot_write) :
  forall (b : crossings) (w : slot_write),
    NoDup (map w_idx ws) -> In w ws ->
    oz (fold_left store ws b) (w_idx w) = w_z w /\
    oshell_id (fold_left store ws b) (w_idx w) = w_shell w.
Proof.
  induction ws as [|a ws IH]; intros b w Hnd Hin; simpl in *.
  - contradiction.
  - inversion Hnd as [|? ? Hnotin Hnd']; subst.
    destruct Hin as [->|Hin].
    + destruct (fold_store_untouched ws (store b w) (w_idx w) Hnotin) as [E1 E2].
      rewrite E1, E2. unfold store; simpl. now rewrite !upd_same.
    + now apply IH.
Qed.

(** ** [populate_z], photosphere branch *)

Lemma photosphere_trace (storage : storage_model_t) (p : R) :
  p <= r_inner storage 0%Z ->
  populate_z_trace storage p
  = (map (near_write storage p) (Zrange 0 (Z.to_nat (no_of_shells storage))),
     no_of_shells storage).
Proof.
  intros Hp. unfold populate_z_trace.
  destruct (Rle_dec p (r_inner storage 0%Z)) as [_|H]; [|contradiction].
  f_equal. unfold for_range. rewrite Z.sub_0_r.
  change (photosphere_body storage p)
    with (fun (k : Z) (ws : list slot_write) => ws ++ [near_write storage p k]).
  rewrite for_loop_log. simpl.
  generalize (Zrange 0 (Z.to_nat (no_of_shells storage))).
  intros l. induction l as [|a l IH]; simpl; [reflexivity | now rewrite IH].
Qed.

Lemma Zrange_NoDup (n : nat) : forall i : Z, NoDup (Zrange i n).
Proof.
  induction n as [|n IH]; intros i; simpl; constructor.
  - rewrite Zrange_In. lia.
  - apply IH.
Qed.

Lemma photosphere_arrays (storage : storage_model_t) (p : R) (b : crossings) (i : Z) :
  p <= r_inner storage 0%Z ->
  (0 <= i)%Z -> (i < no_of_shells storage)%Z ->
  oz (snd (populate_z storage p b)) i = 1 - z_of storage p i /\
  oshell_id (snd (populate_z storage p b)) i = i.
Proof.
  intros Hp H0 HN. unfold populate_z. rewrite photosphere_trace by assumption.
  simpl snd.
  apply (fold_store_lookup _ b (near_write storage p i)).
  - rewrite map_map. simpl. rewrite map_id. apply Zrange_NoDup.
  - apply in_map. apply Zrange_In. lia.
Qed.

(** ** [populate_z], the branch that misses the photosphere *)

Lemma first_intersected_from_spec (storage : storage_model_t) (p : R) (n : nat) :
  forall i : Z,
    let k := first_intersected_from storage p i n in
    (i <= k)%Z /\ (k <= i + Z.of_nat n)%Z /\
    (forall j : Z, (i <= j)%Z -> (j < k)%Z -> z_of storage p j = 0) /\
    ((k < i + Z.of_nat n)%Z -> z_of storage p k <> 0).
Proof.
  induction n as [|n IH]; intros i; simpl.
  - repeat split; lia.
  - fold (z_of storage p i).
    destruct (Req_dec_T (z_of storage p i) 0) as [E|E].
    + destruct (IH (i + 1)%Z) as (H1 & H2 & H3 & H4).
      repeat split; try lia.
      * intros j Hj1 Hj2. destruct (Z.eq_dec j i) as [->|Hne]; [exact E|].
        apply H3; lia.
      * intros Hk. apply H4. lia.
    + repeat split; try lia. intros _. exact E.
Qed.

Lemma shell_loop_skip (storage : storage_model_t) (p : R) (n : nat) :
  forall (i : Z) (ws : list slot_write),
    (forall j : Z, (i <= j)%Z -> (j < i + Z.of_nat n)%Z -> z_of storage p j = 0) ->
    for_loop (shell_body storage p) i n ((-1)%Z, ws) = ((-1)%Z, ws).
Proof.
  induction n as [|n IH]; intros i ws Hz; [reflexivity|].
  assert (E : z_of storage p i = 0) by (apply Hz; lia).
  change (for_loop (shell_body storage p) i (S n) ((-1)%Z, ws))
    with (for_loop (shell_body storage p) (i + 1)%Z n
            (shell_body storage p i ((-1)%Z, ws))).
  replace (shell_body storage p i ((-1)%Z, ws)) with ((-1)%Z, ws).
  - apply IH. intros j H1 H2. apply Hz; lia.
  - unfold z_of in E. unfold shell_body.
    destruct (Req_dec_T _ 0) as [_|Hne]; [reflexivity|contradiction].
Qed.

Lemma shell_body_hit (storage : storage_model_t) (p : R) (i offset : Z)
    (ws : list slot_write) :
  z_of storage p i <> 0 ->
  shell_body storage p i (offset, ws)
  = let offset' := if Z.eqb offset (-1) then i else offset in
    (offset', ws ++ shell_writes storage p offset' i).
Proof.
  intros Hne. unfold shell_body, z_of in *.
  destruct (Req_dec_T _ 0) as [E|_]; [contradiction|]. reflexivity.
Qed.

Lemma shell_loop_run (storage : storage_model_t) (p : R) (n : nat) :
  forall (i k : Z) (ws : list slot_write),
    k <> (-1)%Z ->
    (forall j : Z, (i <= j)%Z -> (j < i + Z.of_nat n)%Z -> z_of storage p j <> 0) ->
    for_loop (shell_body storage p) i n (k, ws)
    = (k, ws ++ flat_map (shell_writes storage p k) (Zrange i n)).
Proof.
  induction n as [|n IH]; intros i k ws Hk Hz.
  - simpl. now rewrite app_nil_r.
  - rewrite for_loop_S. rewrite shell_body_hit by (apply Hz; lia).
    apply Z.eqb_neq in Hk. rewrite Hk. cbv zeta.
    apply Z.eqb_neq in Hk.
    rewrite IH; [|assumption|intros j H1 H2; apply Hz; lia].
    rewrite <- app_assoc. reflexivity.
Qed.

(** The trace of the branch, whatever the radii: the shells before the first
    intersected one are skipped, and when every later shell is intersected
    too each of them makes its two writes. *)
Lemma shell_trace (storage : storage_model_t) (p : R) :
  let N := no_of_shells storage in
  let k := first_intersected storage p in
  ~ p <= r_inner storage 0%Z ->
  (0 <= N)%Z ->
  (forall j : Z, (k <= j)%Z -> (j < N)%Z -> z_of storage p j <> 0) ->
  (k < N)%Z ->
  populate_z_trace storage p
  = (flat_map (shell_writes storage p k) (Zrange k (Z.to_nat (N - k))),
     (2 * (N - k))%Z).
Proof.
  intros N k Hp HN Hz Hk. unfold populate_z_trace. fold N.
  destruct (Rle_dec p (r_inner storage 0%Z)) as [H|_]; [contradiction|].
  pose proof (first_intersected_from_spec storage p (Z.to_nat N) 0%Z) as K.
  cbv zeta in K.
  change (first_intersected_from storage p 0 (Z.to_nat N)) with k in K.
  destruct K as (K1 & K2 & K3 & K4).
  unfold for_range. rewrite Z.sub_0_r.
  replace (Z.to_nat N) with (Z.to_nat k + Z.to_nat (N - k))%nat by lia.
  rewrite for_loop_split.
  rewrite shell_loop_skip by (intros j H1 H2; apply K3; lia).
  replace (0 + Z.of_nat (Z.to_nat k))%Z with k by lia.
  destruct (Z.to_nat (N - k)) as [|m] eqn:Em; [lia|].
  rewrite for_loop_S. rewrite shell_body_hit by (apply Hz; lia).
  simpl Z.eqb. cbv zeta.
  rewrite shell_loop_run;
    [|lia|intros j H1 H2; apply Hz; lia].
  simpl. reflexivity.
Qed.

(** When no shell is intersected the branch writes nothing, [offset] keeps
    its initial value -1 and the count is [2 * (N + 1)]. *)
Lemma shell_trace_none (storage : storage_model_t) (p : R) :
  let N := no_of_shells storage in
  ~ p <= r_inner storage 0%Z ->
  (forall j : Z, (0 <= j)%Z -> (j < N)%Z -> z_of storage p j = 0) ->
  populate_z_trace storage p = ([], (2 * (N - -1))%Z).
Proof.
  intros N Hp Hz. unfold populate_z_trace. fold N.
  destruct (Rle_dec p (r_inner storage 0%Z)) as [H|_]; [contradiction|].
  unfold for_range. rewrite shell_loop_skip; [reflexivity|].
  intros j H1 H2. apply Hz; lia.
Qed.

(** The indices written for the shells [k], ..., [k + n - 1] are those of
    [N - k - n, N - k + n), each of them once. *)
Lemma shell_write_indices (storage : storage_model_t) (p : R) (k : Z) (n : nat) :
  let N := no_of_shells storage in
  forall j : Z,
    count_occ Z.eq_dec
      (map w_idx (flat_map (shell_writes storage p k) (Zrange k n))) j
    = if ((N - k - Z.of_nat n <=? j) && (j <? N - k + Z.of_nat n))%Z
      then 1%nat else 0%nat.
Proof.
  intros N. induction n as [|n IH]; intros j.
  - simpl. destruct (N - k - 0 <=? j)%Z eqn:E1, (j <? N - k + 0)%Z eqn:E2;
      simpl; try reflexivity. zbool. lia.
  - rewrite Zrange_snoc, flat_map_app, map_app, count_occ_app, IH.
    cbn [flat_map map app w_idx count_occ shell_writes]. fold N.
    destruct (Z.eq_dec (N - (k + Z.of_nat n) - 1) j) as [E1|E1],
             (Z.eq_dec (N + (k + Z.of_nat n) - 2 * k) j) as [E2|E2],
             (N - k - Z.of_nat n <=? j)%Z eqn:E3,
             (j <? N - k + Z.of_nat n)%Z eqn:E4,
             (N - k - Z.of_nat (S n) <=? j)%Z eqn:E5,
             (j <? N - k + Z.of_nat (S n))%Z eqn:E6;
      cbn [andb Nat.add]; try reflexivity; zbool; lia.
Qed.

Lemma shell_write_NoDup (storage : storage_model_t) (p : R) (k : Z) (n : nat) :
  NoDup (map w_idx (flat_map (shell_writes storage p k) (Zrange k n))).
Proof.
  apply (NoDup_count_occ Z.eq_dec). intros j. rewrite shell_write_indices.
  destruct (_ && _); lia.
Qed.

Section MissesPhotosphere.

Variable storage : storage_model_t.
Variable p : R.

Local Abbreviation N := (no_of_shells storage).
Local Abbreviation k := (first_intersected storage p).

Hypothesis Hinc : increasing_radii storage.
Hypothesis Ht : 0 < inverse_time_explosion storage.
Hypothesis Hp0 : 0 <= p.
Hypothesis Hin : r_inner storage 0%Z < p.
Hypothesis HN : (0 < N)%Z.
Hypothesis Hout : p < r_outer storage (N - 1)%Z.

Lemma outer_radius_bound (i : Z) :
  (0 <= i)%Z -> (i < N)%Z -> r_outer storage i <= r_outer storage (N - 1)%Z.
Proof.
  intros H0 H1. destruct (Z.eq_dec i (N - 1)) as [->|Hne]; [lra|].
  apply Rlt_le, Hinc; unfold N in *; lia.
Qed.

Lemma first_intersected_facts :
  (0 <= k)%Z /\ (k < N)%Z /\
  (forall j : Z, (0 <= j)%Z -> (j < k)%Z -> z_of storage p j = 0) /\
  p < r_outer storage k.
Proof.
  pose proof (first_intersected_from_spec storage p (Z.to_nat N) 0%Z) as K.
  cbv zeta in K.
  change (first_intersected_from storage p 0 (Z.to_nat N)) with k in K.
  destruct K as (K1 & K2 & K3 & K4).
  assert (Hlast : 0 < z_of storage p (N - 1)%Z)
    by (apply calculate_z_pos; assumption).
  assert (Hk : (k < N)%Z).
  { destruct (Z.eq_dec k N) as [E|E]; [|lia].
    assert (z_of storage p (N - 1)%Z = 0) by (apply K3; lia). lra. }
  repeat split; try assumption.
  destruct (Rle_dec (r_outer storage k) p) as [Hle|Hgt]; [|lra].
  exfalso. apply K4; [lia|]. now apply calculate_z_miss.
Qed.

Lemma intersected_radius (j : Z) :
  (k <= j)%Z -> (j < N)%Z -> p < r_outer storage j.
Proof.
  intros H1 H2. destruct first_intersected_facts as (K0 & K1 & _ & K3).
  destruct (Z.eq_dec j k) as [->|Hne]; [assumption|].
  apply Rlt_trans with (r_outer storage k); [assumption|].
  apply Hinc; unfold N in *; lia.
Qed.

Lemma intersected_z_pos (j : Z) :
  (k <= j)%Z -> (j < N)%Z -> 0 < z_of storage p j.
Proof.
  intros H1 H2. apply calculate_z_pos; try assumption.
  now apply intersected_radius.
Qed.

Lemma intersected_z_increasing (i j : Z) :
  (k <= i)%Z -> (i < j)%Z -> (j < N)%Z -> z_of storage p i < z_of storage p j.
Proof.
  intros H1 H2 H3. destruct first_intersected_facts as (K0 & _).
  apply calculate_z_increasing; try assumption.
  - apply intersected_radius; lia.
  - apply Hinc; unfold N in *; lia.
Qed.

Lemma misses_trace :
  populate_z_trace storage p
  = (flat_map (shell_writes storage p k) (Zrange k (Z.to_nat (N - k))),
     (2 * (N - k))%Z).
Proof.
  destruct first_intersected_facts as (K0 & K1 & _).
  apply shell_trace; try (fold N; fold k); try lia; try lra.
  intros j H1 H2. pose proof (intersected_z_pos j H1 H2). lra.
Qed.

(** The arrays after the call, read by shell. *)
Lemma misses_arrays_by_shell (b : crossings) (i : Z) :
  (k <= i)%Z -> (i < N)%Z ->
  let b' := snd (populate_z storage p b) in
  oz b' (N - i - 1)%Z = 1 + z_of storage p i /\
  oshell_id b' (N - i - 1)%Z = i /\
  oz b' (N + i - 2 * k)%Z = 1 - z_of storage p i /\
  oshell_id b' (N + i - 2 * k)%Z = i.
Proof.
  intros H1 H2. unfold populate_z. rewrite misses_trace. simpl snd.
  assert (Hi : In i (Zrange k (Z.to_nat (N - k)))) by (apply Zrange_In; lia).
  pose proof (shell_write_NoDup storage p k (Z.to_nat (N - k))) as Hnd.
  destruct (fold_store_lookup _ b
              (mk_write (N - i - 1) (1 + z_of storage p i) i) Hnd) as [E1 E2].
  { apply in_flat_map. exists i. split; [assumption|]. left. reflexivity. }
  destruct (fold_store_lookup _ b
              (mk_write (N + i - 2 * k) (1 - z_of storage p i) i) Hnd) as [E3 E4].
  { apply in_flat_map. exists i. split; [assumption|]. right. left. reflexivity. }
  simpl in E1, E2, E3, E4. repeat split; assumption.
Qed.

(** The same arrays read by position: the far sides come first, outermost
    shell first, then the near sides, innermost intersected shell first. *)
Lemma misses_arrays_far (b : crossings) (j : Z) :
  (0 <= j)%Z -> (j < N - k)%Z ->
  oz (snd (populate_z storage p b)) j = 1 + z_of storage p (N - 1 - j)%Z.
Proof.
  intros H1 H2.
  destruct (misses_arrays_by_shell b (N - 1 - j)%Z) as (E & _); [lia|lia|].
  replace (N - (N - 1 - j) - 1)%Z with j in E by lia. exact E.
Qed.

Lemma misses_arrays_near (b : crossings) (j : Z) :
  (N - k <= j)%Z -> (j < 2 * (N - k))%Z ->
  oz (snd (populate_z storage p b)) j = 1 - z_of storage p (j - N + 2 * k)%Z.
Proof.
  intros H1 H2. destruct first_intersected_facts as (K0 & K1 & _).
  destruct (misses_arrays_by_shell b (j - N + 2 * k)%Z) as (_ & _ & E & _);
    [lia|lia|].
  replace (N + (j - N + 2 * k) - 2 * k)%Z with j in E by lia. exact E.
Qed.

Lemma misses_strictly_decreasing (b : crossings) (j : Z) :
  (0 <= j)%Z -> (j < 2 * (N - k) - 1)%Z ->
  oz (snd (populate_z storage p b)) (j + 1)%Z
  < oz (snd (populate_z storage p b)) j.
Proof.
  intros H1 H2. destruct first_intersected_facts as (K0 & K1 & _).
  destruct (Z_lt_le_dec (j + 1) (N - k)) as [Hfar|Hmid].
  - rewrite !misses_arrays_far by lia.
    pose proof (intersected_z_increasing (N - 1 - (j + 1)) (N - 1 - j)).
    lapply H; [|lia]. intros H'. lapply H'; [|lia]. intros H''.
    lapply H''; [|lia]. lra.
  - destruct (Z.eq_dec (j + 1) (N - k)) as [E|E].
    + rewrite misses_arrays_near by lia. rewrite misses_arrays_far by lia.
      replace (j + 1 - N + 2 * k)%Z with k by lia.
      replace (N - 1 - j)%Z with k by lia.
      pose proof (intersected_z_pos k). lapply H; [|lia]. intros H'.
      lapply H'; [|lia]. lra.
    + rewrite !misses_arrays_near by lia.
      pose proof (intersected_z_increasing (j - N + 2 * k) (j + 1 - N + 2 * k)).
      lapply H; [|lia]. intros H'. lapply H'; [|lia]. intros H''.
      lapply H''; [|lia]. lra.
Qed.

Lemma first_shell_above_from_spec (n : nat) :
  forall i : Z,
    let a := first_shell_above_from storage p i n in
    (i <= a)%Z /\ (a <= i + Z.of_nat n)%Z /\
    (forall j : Z, (i <= j)%Z -> (j < a)%Z -> r_outer storage j <= p) /\
    ((a < i + Z.of_nat n)%Z -> p < r_outer storage a).
Proof.
  induction n as [|n IH]; intros i; simpl.
  - repeat split; lia.
  - destruct (Rgt_dec (r_outer storage i) p) as [E|E].
    + repeat split; try lia. intros _. lra.
    + destruct (IH (i + 1)%Z) as (H1 & H2 & H3 & H4).
      repeat split; try lia.
      * intros j Hj1 Hj2. destruct (Z.eq_dec j i) as [->|Hne]; [lra|].
        apply H3; lia.
      * intros Ha. apply H4. lia.
Qed.

(** The first intersected shell is the first shell with [r_outer > p]. *)
Lemma first_shell_above_is_offset : first_shell_above storage p = k.
Proof.
  destruct first_intersected_facts as (K0 & K1 & K2 & K3).
  pose proof (first_shell_above_from_spec (Z.to_nat N) 0%Z) as A.
  cbv zeta in A.
  change (first_shell_above_from storage p 0 (Z.to_nat N))
    with (first_shell_above storage p) in A.
  destruct A as (A1 & A2 & A3 & A4).
  destruct (Z.lt_trichotomy (first_shell_above storage p) k) as [Hlt|[E|Hgt]].
  - exfalso. assert (z_of storage p (first_shell_above storage p) = 0)
      by (apply K2; lia).
    assert (0 < z_of storage p (first_shell_above storage p))
      by (apply calculate_z_pos; try assumption; apply A4; lia).
    lra.
  - exact E.
  - exfalso. assert (r_outer storage k <= p) by (apply A3; lia). lra.
Qed.

(** Each slot of [0, count) is written once, and no other slot is. *)
Lemma misses_writes_each_slot_once (j : Z) :
  count_occ Z.eq_dec (map w_idx (fst (populate_z_trace storage p))) j
  = if ((0 <=? j) && (j <? snd (populate_z_trace storage p)))%Z
    then 1%nat else 0%nat.
Proof.
  destruct first_intersected_facts as (K0 & K1 & _).
  rewrite misses_trace. simpl fst. simpl snd.
  rewrite shell_write_indices. fold N.
  replace (N - k - Z.of_nat (Z.to_nat (N - k)))%Z with 0%Z by lia.
  replace (N - k + Z.of_nat (Z.to_nat (N - k)))%Z with (2 * (N - k))%Z by lia.
  reflexivity.
Qed.

Hypothesis Hlight :
  forall i : Z, (0 <= i)%Z -> (i < N)%Z ->
    r_outer storage i * C_INV * inverse_time_explosion storage < 1.

Lemma intersected_z_below_one (j : Z) :
  (k <= j)%Z -> (j < N)%Z -> z_of storage p j < 1.
Proof.
  intros H1 H2. destruct first_intersected_facts as (K0 & _).
  apply calculate_z_below_one; try assumption.
  - now apply intersected_radius.
  - apply Hlight; lia.
Qed.

Lemma misses_in_range (b : crossings) (j : Z) :
  (0 <= j)%Z -> (j < 2 * (N - k))%Z ->
  0 < oz (snd (populate_z storage p b)) j < 2.
Proof.
  intros H1 H2. destruct first_intersected_facts as (K0 & K1 & _).
  destruct (Z_lt_le_dec j (N - k)) as [Hfar|Hnear].
  - rewrite misses_arrays_far by lia.
    assert (0 < z_of storage p (N - 1 - j)%Z) by (apply intersected_z_pos; lia).
    assert (z_of storage p (N - 1 - j)%Z < 1)
      by (apply intersected_z_below_one; lia).
    lra.
  - rewrite misses_arrays_near by lia.
    assert (0 < z_of storage p (j - N + 2 * k)%Z)
      by (apply intersected_z_pos; lia).
    assert (z_of storage p (j - N + 2 * k)%Z < 1)
      by (apply intersected_z_below_one; lia).
    lra.
Qed.

End MissesPhotosphere.

(** ** Sample inputs *)

(** Reads the cells of the sample arrays. *)
Ltac cells := simpl; unfold of_list; simpl.

Ltac below_two i :=
  let H := fresh in
  assert (H : i = 0%Z \/ i = 1%Z) by lia; destruct H; subst i.

Lemma two_shells_increasing : increasing_radii two_shells.
Proof.
  intros i j H0 Hij Hj. simpl in Hj.
  assert (i = 0%Z) by lia. assert (j = 1%Z) by lia. subst.
  cells. lra.
Qed.

Lemma two_shells_below_light : below_light_distance two_shells.
Proof.
  split; [simpl; lra|]. intros i H0 H1. simpl in H1.
  below_two i; cells; unfold C_INV; lra.
Qed.

Lemma fast_shell_increasing : increasing_radii fast_shell.
Proof. intros i j H0 Hij Hj. simpl in Hj. lia. Qed.

Lemma one_shell_increasing : increasing_radii one_shell.
Proof. intros i j H0 Hij Hj. simpl in Hj. lia. Qed.

(** ** The claims on [populate_z] *)

(** C3 (amended).  For a shell model with strictly increasing outer radii,
    all below the light-distance unit, and a ray with [0 <= p] and
    [r_inner[0] < p < r_outer[N-1]]: with [offset] the first intersected
    shell, [populate_z] writes for each intersected shell [i] (the shells
    [offset .. N-1]) the far-side crossing [1 + z_i] at index [N-i-1] and the
    near-side crossing [1 - z_i] at index [N+i-2*offset], both tagged [i],
    and nothing else; it returns [2 * (N - offset)]; the [z] array of that
    length is strictly decreasing with all values in (0, 2). *)
Theorem populate_z_misses_photosphere
    (storage : storage_model_t) (p : R) (b : crossings) :
  let N := no_of_shells storage in
  let offset := first_intersected storage p in
  let count := fst (populate_z storage p b) in
  let b' := snd (populate_z storage p b) in
  increasing_radii storage ->
  below_light_distance storage ->
  0 <= p ->
  (0 < N)%Z ->
  r_inner storage 0%Z < p ->
  p < r_outer storage (N - 1)%Z ->
  ((0 <= offset)%Z /\ (offset < N)%Z /\
   (forall i : Z, (0 <= i)%Z -> (i < offset)%Z -> z_of storage p i = 0) /\
   (forall i : Z, (offset <= i)%Z -> (i < N)%Z -> z_of storage p i <> 0)) /\
  fst (populate_z_trace storage p)
  = flat_map (shell_writes storage p offset)
      (Zrange offset (Z.to_nat (N - offset))) /\
  (forall i : Z, (offset <= i)%Z -> (i < N)%Z ->
     oz b' (N - i - 1)%Z = 1 + z_of storage p i /\
     oshell_id b' (N - i - 1)%Z = i /\
     oz b' (N + i - 2 * offset)%Z = 1 - z_of storage p i /\
     oshell_id b' (N + i - 2 * offset)%Z = i) /\
  count = (2 * (N - offset))%Z /\
  (forall j : Z, (0 <= j)%Z -> (j < count - 1)%Z -> oz b' (j + 1)%Z < oz b' j) /\
  (forall j : Z, (0 <= j)%Z -> (j < count)%Z -> 0 < oz b' j < 2).
Proof.
  intros N offset count b' Hinc [Ht Hlight] Hp0 HN Hin Hout.
  assert (Htrace := misses_trace storage p).
  repeat (lapply Htrace; [clear Htrace; intro Htrace | assumption]).
  assert (Hcount : count = (2 * (N - offset))%Z).
  { unfold count, populate_z. rewrite Htrace. reflexivity. }
  destruct (first_intersected_facts storage p) as (K0 & K1 & K2 & _);
    try assumption.
  repeat split; try assumption.
  - intros i H1 H2.
    assert (0 < z_of storage p i)
      by (apply intersected_z_pos; assumption).
    lra.
  - now rewrite Htrace.
  - apply misses_arrays_by_shell; assumption.
  - apply misses_arrays_by_shell; assumption.
  - apply misses_arrays_by_shell; assumption.
  - apply misses_arrays_by_shell; assumption.
  - intros j H1 H2. rewrite Hcount in H2.
    apply misses_strictly_decreasing; assumption.
  - apply misses_in_range; try assumption; lia.
  - apply misses_in_range; try assumption; lia.
Qed.

Lemma populate_z_misses_photosphere_witness :
  let count := fst (populate_z two_shells (3 / 2) blank) in
  let b' := snd (populate_z two_shells (3 / 2) blank) in
  count = (2 * (2 - first_intersected two_shells (3 / 2)))%Z /\
  (forall j : Z, (0 <= j)%Z -> (j < count - 1)%Z -> oz b' (j + 1)%Z < oz b' j) /\
  (forall j : Z, (0 <= j)%Z -> (j < count)%Z -> 0 < oz b' j < 2).
Proof.
  assert (H1 : 0 <= 3 / 2) by lra.
  assert (H2 : (0 < no_of_shells two_shells)%Z) by (simpl; lia).
  assert (H3 : r_inner two_shells 0%Z < 3 / 2) by (cells; lra).
  assert (H4 : 3 / 2 < r_outer two_shells (no_of_shells two_shells - 1)%Z)
    by (cells; lra).
  exact (proj2 (proj2 (proj2
           (populate_z_misses_photosphere two_shells (3 / 2) blank
              two_shells_increasing two_shells_below_light H1 H2 H3 H4)))).
Defined.

(** C3, as stated, fails when a shell expands faster than light: on
    [fast_shell] the ray [p = 3] has [z_0 = 4 * C_INV * 1e11], about 13.3, so
    the first value written is above 2 (and the second is negative). *)
Lemma populate_z_faster_than_light :
  increasing_radii fast_shell /\
  r_inner fast_shell 0%Z < 3 /\
  3 < r_outer fast_shell (no_of_shells fast_shell - 1)%Z /\
  (0 < fst (populate_z fast_shell 3 blank))%Z /\
  ~ (0 < oz (snd (populate_z fast_shell 3 blank)) 0%Z < 2).
Proof.
  assert (Ht : 0 < inverse_time_explosion fast_shell) by (simpl; lra).
  assert (H1 : 0 <= 3) by lra.
  assert (H2 : (0 < no_of_shells fast_shell)%Z) by (simpl; lia).
  assert (H3 : r_inner fast_shell 0%Z < 3) by (cells; lra).
  assert (H4 : 3 < r_outer fast_shell (no_of_shells fast_shell - 1)%Z)
    by (cells; lra).
  destruct (first_intersected_facts fast_shell 3 Ht H1 H2 H4) as (K0 & K1 & _).
  simpl in K1.
  assert (K : first_intersected fast_shell 3 = 0%Z) by lia.
  repeat split; try assumption; try apply fast_shell_increasing.
  - unfold populate_z.
    rewrite (misses_trace fast_shell 3 fast_shell_increasing Ht H1 H3 H2 H4).
    simpl fst. rewrite K. simpl. lia.
  - destruct (misses_arrays_by_shell fast_shell 3 fast_shell_increasing
                Ht H1 H3 H2 H4 blank 0%Z) as (E & _); [lia | simpl; lia |].
    simpl Z.sub in E. rewrite E. unfold z_of. cells.
    rewrite calculate_z_hit by lra.
    replace (5 * 5 - 3 * 3) with (4 * 4) by lra.
    rewrite sqrt_square by lra. unfold C_INV. lra.
Qed.

(** C5.  For a shell model whose outer radii are all below the
    light-distance unit and a ray with [0 <= p <= r_inner[0]], [populate_z]
    returns the number of shells, its writes are, in increasing shell order,
    the single crossing [1 - z_i] of each shell [i], tagged [i], and every
    value written lies in (0, 1].  (The radii need not be increasing for
    this.) *)
Theorem populate_z_photosphere
    (storage : storage_model_t) (p : R) (b : crossings) :
  let N := no_of_shells storage in
  let b' := snd (populate_z storage p b) in
  below_light_distance storage ->
  0 <= p ->
  p <= r_inner storage 0%Z ->
  fst (populate_z storage p b) = N /\
  fst (populate_z_trace storage p)
  = map (fun i => mk_write i (1 - z_of storage p i) i) (Zrange 0 (Z.to_nat N)) /\
  (forall i : Z, (0 <= i)%Z -> (i < N)%Z ->
     oz b' i = 1 - z_of storage p i /\ oshell_id b' i = i /\
     0 < oz b' i <= 1).
Proof.
  intros N b' [Ht Hlight] Hp0 Hp.
  split; [|split].
  - unfold populate_z. now rewrite photosphere_trace.
  - now rewrite photosphere_trace.
  - intros i H0 H1.
    destruct (photosphere_arrays storage p b i Hp H0 H1) as [E1 E2].
    fold b' in E1, E2. rewrite E1, E2. repeat split.
    + unfold z_of. destruct (Rle_dec (r_outer storage i) p) as [Hle|Hgt].
      * rewrite calculate_z_miss by assumption. lra.
      * assert (calculate_z (r_outer storage i) p
                  (inverse_time_explosion storage) < 1)
          by (apply calculate_z_below_one; try assumption; try lra;
              now apply Hlight).
        lra.
    + unfold z_of. destruct (Rle_dec (r_outer storage i) p) as [Hle|Hgt].
      * rewrite calculate_z_miss by assumption. lra.
      * assert (0 < calculate_z (r_outer storage i) p
                      (inverse_time_explosion storage))
          by (apply calculate_z_pos; try assumption; lra).
        lra.
Qed.

Lemma populate_z_photosphere_witness :
  fst (populate_z two_shells 1 blank) = 2%Z /\
  forall i : Z, (0 <= i)%Z -> (i < 2)%Z ->
    oz (snd (populate_z two_shells 1 blank)) i = 1 - z_of two_shells 1 i /\
    oshell_id (snd (populate_z two_shells 1 blank)) i = i /\
    0 < oz (snd (populate_z two_shells 1 blank)) i <= 1.
Proof.
  assert (H1 : 0 <= 1) by lra.
  assert (H2 : 1 <= r_inner two_shells 0%Z) by (cells; lra).
  pose proof (populate_z_photosphere two_shells 1 blank
                two_shells_below_light H1 H2) as T.
  cbv zeta in T. destruct T as (T1 & _ & T3). split; assumption.
Defined.

(** C4 (amended).  For a shell model with strictly increasing outer radii,
    all below the light-distance unit, and a ray with [0 <= p] strictly
    above the photosphere radius and strictly below the outermost radius,
    [populate_z] returns [2 * (N - offset)] where [offset] is the index of
    the first shell with [r_outer > p]; the values returned are all in
    (0, 2) and strictly decreasing. *)
Theorem populate_z_geometry_consistency
    (storage : storage_model_t) (p : R) (b : crossings) :
  let N := no_of_shells storage in
  let offset := first_shell_above storage p in
  let count := fst (populate_z storage p b) in
  let b' := snd (populate_z storage p b) in
  increasing_radii storage ->
  below_light_distance storage ->
  0 <= p ->
  (0 < N)%Z ->
  r_inner storage 0%Z < p ->
  p < r_outer storage (N - 1)%Z ->
  count = (2 * (N - offset))%Z /\
  (forall j : Z, (0 <= j)%Z -> (j < count)%Z -> 0 < oz b' j < 2) /\
  (forall j : Z, (0 <= j)%Z -> (j < count - 1)%Z -> oz b' (j + 1)%Z < oz b' j).
Proof.
  intros N offset count b' Hinc [Ht Hlight] Hp0 HN Hin Hout.
  assert (Hoff : offset = first_intersected storage p)
    by (apply first_shell_above_is_offset; assumption).
  assert (Htrace := misses_trace storage p).
  repeat (lapply Htrace; [clear Htrace; intro Htrace | assumption]).
  assert (Hcount : count = (2 * (N - offset))%Z).
  { unfold count, populate_z. rewrite Htrace, Hoff. reflexivity. }
  split; [exact Hcount|]. rewrite Hcount, Hoff. split; intros j H1 H2.
  - apply misses_in_range; assumption.
  - apply misses_strictly_decreasing; assumption.
Qed.

Lemma populate_z_geometry_consistency_witness :
  let count := fst (populate_z two_shells (5 / 2) blank) in
  let b' := snd (populate_z two_shells (5 / 2) blank) in
  count = (2 * (2 - first_shell_above two_shells (5 / 2)))%Z /\
  (forall j : Z, (0 <= j)%Z -> (j < count)%Z -> 0 < oz b' j < 2) /\
  (forall j : Z, (0 <= j)%Z -> (j < count - 1)%Z -> oz b' (j + 1)%Z < oz b' j).
Proof.
  assert (H1 : 0 <= 5 / 2) by lra.
  assert (H2 : (0 < no_of_shells two_shells)%Z) by (simpl; lia).
  assert (H3 : r_inner two_shells 0%Z < 5 / 2) by (cells; lra).
  assert (H4 : 5 / 2 < r_outer two_shells (no_of_shells two_shells - 1)%Z)
    by (cells; lra).
  exact (populate_z_geometry_consistency two_shells (5 / 2) blank
           two_shells_increasing two_shells_below_light H1 H2 H3 H4).
Defined.

(** C4, as stated, fails: a ray strictly inside the photosphere takes the
    photosphere branch, which returns the number of shells.  On [two_shells]
    with [p = 1/2] the first shell with [r_outer > p] is shell 0, so the
    claimed count is 4, and [populate_z] returns 2. *)
Lemma populate_z_inside_photosphere_count :
  1 / 2 < r_inner two_shells 0%Z /\
  first_shell_above two_shells (1 / 2) = 0%Z /\
  fst (populate_z two_shells (1 / 2) blank) = 2%Z /\
  fst (populate_z two_shells (1 / 2) blank)
  <> (2 * (no_of_shells two_shells - first_shell_above two_shells (1 / 2)))%Z.
Proof.
  assert (H1 : 1 / 2 <= r_inner two_shells 0%Z) by (cells; lra).
  assert (H2 : first_shell_above two_shells (1 / 2) = 0%Z).
  { unfold first_shell_above. cells.
    destruct (Rgt_dec 2 (1 / 2)) as [_|H]; [reflexivity | lra]. }
  assert (H3 : fst (populate_z two_shells (1 / 2) blank) = 2%Z).
  { unfold populate_z. rewrite photosphere_trace by assumption. reflexivity. }
  repeat split; try assumption.
  - cells; lra.
  - rewrite H2, H3. simpl. lia.
Qed.

(** ** The last ray *)

(** A loop that fills the cells [lo .. hi-1] of an array leaves [f j] in
    cell [j]. *)
Lemma fill_lookup {A : Type} (f : Z -> A) (n : nat) :
  forall (i : Z) (a : array A) (j : Z),
    for_loop (fun k a => upd a k (f k)) i n a j
    = if ((i <=? j) && (j <? i + Z.of_nat n))%Z then f j else a j.
Proof.
  induction n as [|n IH]; intros i a j.
  - simpl. destruct (i <=? j)%Z eqn:E1, (j <? i + 0)%Z eqn:E2;
      simpl; try reflexivity. zbool. lia.
  - rewrite for_loop_S, IH. unfold upd.
    destruct (i + 1 <=? j)%Z eqn:E1, (j <? i + 1 + Z.of_nat n)%Z eqn:E2,
             (i <=? j)%Z eqn:E3, (j <? i + Z.of_nat (S n))%Z eqn:E4,
             (j =? i)%Z eqn:E5;
      cbn [andb]; try reflexivity; zbool; subst; try lia; reflexivity.
Qed.

Lemma calculate_p_values_lookup (storage : storage_model_t) (N : Z)
    (opp : array R) (i : Z) :
  (0 <= i)%Z -> (i < N)%Z ->
  calculate_p_values storage N opp i
  = r_outer storage (no_of_shells storage - 1)%Z / IZR (N - 1) * IZR i.
Proof.
  intros H0 H1. unfold calculate_p_values, for_range. rewrite fill_lookup.
  destruct (0 <=? i)%Z eqn:E1, (i <? 0 + Z.of_nat (Z.to_nat (N - 0)))%Z eqn:E2;
    cbn [andb]; try reflexivity; zbool; lia.
Qed.

(** With at least two samples, the last impact parameter is the outermost
    radius itself. *)
Lemma last_ray_is_outermost_radius (storage : storage_model_t) (N : Z)
    (opp : array R) :
  (2 <= N)%Z ->
  calculate_p_values storage N opp (N - 1)%Z
  = r_outer storage (no_of_shells storage - 1)%Z.
Proof.
  intros HN. rewrite calculate_p_values_lookup by lia.
  assert (0 < IZR (N - 1)) by (apply IZR_lt; lia).
  field. lra.
Qed.

(** On a ray at or beyond the outermost radius (and outside the
    photosphere) no shell is intersected. *)
Lemma beyond_outermost_trace (storage : storage_model_t) (p : R) :
  let N := no_of_shells storage in
  increasing_radii storage ->
  r_inner storage 0%Z < p ->
  r_outer storage (N - 1)%Z <= p ->
  populate_z_trace storage p = ([], (2 * (N + 1))%Z).
Proof.
  intros N Hinc Hin Hout.
  rewrite shell_trace_none.
  - fold N. f_equal; lia.
  - lra.
  - intros j H0 H1. apply calculate_z_miss.
    destruct (Z.eq_dec j (N - 1)) as [->|Hne]; [assumption|].
    apply Rle_trans with (r_outer storage (N - 1)%Z); [|assumption].
    apply Rlt_le, Hinc; unfold N in *; lia.
Qed.

(** C10 fails on the ray the driver evaluates last.  On [one_shell] with two
    samples that ray is [p = 2], the outer radius; [populate_z] takes the
    branch that misses the photosphere, finds no intersected shell, writes
    no slot and returns 4 (its [offset] is still -1), more than the capacity
    2 of the caller's arrays. *)
Theorem populate_z_last_ray_overrun :
  increasing_radii one_shell /\
  calculate_p_values one_shell 2 (fun _ => 0) 1%Z = 2 /\
  ~ 2 <= r_inner one_shell 0%Z /\
  populate_z_trace one_shell 2 = ([], 4%Z) /\
  (2 * no_of_shells one_shell < 4)%Z.
Proof.
  split; [apply one_shell_increasing|].
  split; [|split; [|split]].
  - pose proof (last_ray_is_outermost_radius one_shell 2 (fun _ => 0)) as E.
    change (2 - 1)%Z with 1%Z in E. rewrite E by lia. cells. reflexivity.
  - cells. lra.
  - rewrite beyond_outermost_trace.
    + reflexivity.
    + apply one_shell_increasing.
    + cells. lra.
    + cells. lra.
  - simpl. lia.
Qed.

(** ** The frequency-line locator *)

Lemma locate_from_spec (nu : array R) (t : R) (n : nat) :
  forall i : Z,
    let s := locate_from nu t i n in
    (i <= s)%Z /\ (s <= i + Z.of_nat n)%Z /\
    (forall j : Z, (i <= j)%Z -> (j < s)%Z -> t < nu j) /\
    ((s < i + Z.of_nat n)%Z -> nu s <= t).
Proof.
  induction n as [|n IH]; intros i; simpl.
  - repeat split; lia.
  - destruct (Rle_dec (nu i) t) as [E|E].
    + repeat split; try lia. intros _. exact E.
    + destruct (IH (i + 1)%Z) as (H1 & H2 & H3 & H4).
      repeat split; try lia.
      * intros j Hj1 Hj2. destruct (Z.eq_dec j i) as [->|Hne]; [lra|].
        apply H3; lia.
      * intros Hs. apply H4. lia.
Qed.

Lemma line_search_spec (nu : array R) (t : R) (n : Z) :
  let s := line_search nu t n in
  (0 <= s)%Z /\ (s <= Z.max 0 n)%Z /\
  (forall j : Z, (0 <= j)%Z -> (j < s)%Z -> t < nu j) /\
  ((s < n)%Z -> nu s <= t).
Proof.
  pose proof (locate_from_spec nu t (Z.to_nat n) 0%Z) as K. cbv zeta in K.
  fold (line_search nu t n) in K. destruct K as (K1 & K2 & K3 & K4).
  repeat split; try assumption; try lia.
  intros Hs. apply K4. lia.
Qed.

(** ** The walk over the lines of a segment *)

Lemma Zrange_app (n m : nat) :
  forall i : Z, Zrange i (n + m) = Zrange i n ++ Zrange (i + Z.of_nat n)%Z m.
Proof.
  induction n as [|n IH]; intros i.
  - simpl. now rewrite Z.add_0_r.
  - change (Zrange i (S n + m)) with (i :: Zrange (i + 1)%Z (n + m)).
    rewrite IH. simpl Zrange at 2. simpl app.
    replace (i + 1 + Z.of_nat n)%Z with (i + Z.of_nat (S n))%Z by lia.
    reflexivity.
Qed.

Lemma filter_none {A : Type} (f : A -> bool) (l : list A) :
  (forall x : A, In x l -> f x = false) -> filter f l = [].
Proof.
  induction l as [|a l IH]; intros H; simpl; [reflexivity|].
  rewrite (H a) by (left; reflexivity). apply IH.
  intros x Hx. apply H. now right.
Qed.

Lemma in_window_true (line : array R) (nu_end nu_start : R) (j : Z) :
  in_window line nu_end nu_start j = true <-> nu_end <= line j <= nu_start.
Proof.
  unfold in_window.
  destruct (Rle_dec nu_end (line j)), (Rle_dec (line j) nu_start);
    split; intros H; try discriminate; try reflexivity; lra.
Qed.

Lemma in_window_false (line : array R) (nu_end nu_start : R) (j : Z) :
  in_window line nu_end nu_start j = false <-> ~ nu_end <= line j <= nu_start.
Proof.
  rewrite <- in_window_true. destruct (in_window line nu_end nu_start j);
    split; intros H; try discriminate; try reflexivity; try tauto.
Qed.

Section LineWalk.

Variables line exp_tau att_S_ul : array R.
Variables nu_end nu_start : R.
Variable offset : Z.

Local Abbreviation cross :=
  (fun (I : R) (j : Z) => I * exp_tau (offset + j)%Z + att_S_ul (offset + j)%Z).

(** From a position where every remaining line is at or below [nu_start],
    on a descending list, the walk crosses the lines of the window, which
    are the first [m] of them, and stops at a line below [nu_end] or at
    the end of the list. *)
Lemma line_walk_window (n : nat) :
  forall (j : Z) (I : R),
    (forall a : Z, (j <= a)%Z -> (a < j + Z.of_nat n)%Z -> line a <= nu_start) ->
    (forall a c : Z, (j <= a)%Z -> (a < c)%Z -> (c < j + Z.of_nat n)%Z ->
                     line c < line a) ->
    line_walk line exp_tau att_S_ul nu_end offset j n I
    = fold_left cross (filter (in_window line nu_end nu_start) (Zrange j n)) I /\
    exists m : nat,
      (m <= n)%nat /\
      filter (in_window line nu_end nu_start) (Zrange j n) = Zrange j m /\
      ((m < n)%nat -> line (j + Z.of_nat m)%Z < nu_end).
Proof.
  induction n as [|n IH]; intros j I Hstart Hdesc.
  - simpl. split; [reflexivity|]. exists 0%nat. simpl. repeat split; lia.
  - cbn [line_walk Zrange filter].
    destruct (Rlt_dec (line j) nu_end) as [Hlt|Hge].
    + assert (E : in_window line nu_end nu_start j = false)
        by (apply in_window_false; lra).
      rewrite E.
      assert (F : filter (in_window line nu_end nu_start) (Zrange (j + 1) n) = []).
      { apply filter_none. intros a Ha. apply Zrange_In in Ha.
        apply in_window_false.
        assert (line a < line j) by (apply Hdesc; lia). lra. }
      rewrite F. split; [reflexivity|].
      exists 0%nat. simpl. rewrite Z.add_0_r. repeat split; [lia|]. now intros _.
    + assert (E : in_window line nu_end nu_start j = true).
      { apply in_window_true. split; [lra|]. apply Hstart; lia. }
      rewrite E. cbn [fold_left].
      destruct (IH (j + 1)%Z (cross I j)) as (W & m & Hm & Hf & Hstop).
      * intros a H1 H2. apply Hstart; lia.
      * intros a c H1 H2 H3. apply Hdesc; lia.
      * split; [exact W|]. exists (S m). repeat split; [lia| |].
        -- cbn [Zrange]. now rewrite Hf.
        -- intros Hlt.
           replace (j + Z.of_nat (S m))%Z with (j + 1 + Z.of_nat m)%Z by lia.
           apply Hstop. lia.
Qed.

(** Without any assumption on the order of the list: when none of the
    remaining lines is in the window and the walk starts at a line at or
    below [nu_start], it crosses no line. *)
Lemma line_walk_no_crossing (n : nat) (j : Z) (I : R) :
  ((0 < n)%nat -> line j <= nu_start) ->
  ((0 < n)%nat -> ~ nu_end <= line j <= nu_start) ->
  line_walk line exp_tau att_S_ul nu_end offset j n I = I.
Proof.
  intros H1 H2. destruct n as [|n]; [reflexivity|].
  cbn [line_walk]. destruct (Rlt_dec (line j) nu_end) as [_|Hge];
    [reflexivity|].
  exfalso. apply H2; [lia|]. split; [lra|]. apply H1. lia.
Qed.

End LineWalk.

Lemma two_shells_descending : descending_lines two_shells.
Proof.
  intros i j H0 Hij Hj. simpl in Hj.
  assert (H : ((i = 0 /\ j = 1) \/ (i = 0 /\ j = 2) \/ (i = 1 /\ j = 2))%Z)
    by lia.
  destruct H as [[-> ->]|[[-> ->]|[-> ->]]]; cells; lra.
Qed.

(** One segment, on arbitrary arrays.  On a descending line list the locator
    gives the first line at or below [nu * z[i]]; the lines of the window
    (rest frequency from [nu * z[i+1]] up to [nu * z[i]], ends included) are
    the consecutive lines from there up to the first line below
    [nu * z[i+1]]; and the segment crosses exactly these lines, in
    descending-frequency order, in the table row [shell_id[i]]. *)
Theorem segment_crosses_window
    (storage : storage_model_t) (att_S_ul : array R) (nu : R)
    (exp_tau z : array R) (shell_id : array Z) (i : Z) (I : R) :
  let line := line_list_nu storage in
  let size_line := no_of_lines storage in
  let nu_start := nu * z i in
  let nu_end := nu * z (i + 1)%Z in
  let start := line_search line nu_start size_line in
  descending_lines storage ->
  ((0 <= start)%Z /\
   (forall j : Z, (0 <= j)%Z -> (j < start)%Z -> nu_start < line j) /\
   ((start < size_line)%Z -> line start <= nu_start)) /\
  (exists m : nat,
     window_lines storage nu z i = Zrange start m /\
     (start + Z.of_nat m <= Z.max 0 size_line)%Z /\
     ((start + Z.of_nat m < size_line)%Z ->
      line (start + Z.of_nat m)%Z < nu_end)) /\
  segment_body storage att_S_ul nu exp_tau z shell_id i I
  = fold_left (cross_line storage exp_tau att_S_ul (shell_id i))
      (window_lines storage nu z i) I.
Proof.
  intros line size_line nu_start nu_end start Hdesc.
  destruct (line_search_spec line nu_start size_line) as (S0 & S1 & S2 & S3).
  fold start in S0, S1, S2, S3.
  assert (Hsplit : Zrange 0 (Z.to_nat size_line)
                   = Zrange 0 (Z.to_nat start)
                     ++ Zrange start (Z.to_nat (size_line - start))).
  { replace (Z.to_nat size_line)
      with (Z.to_nat start + Z.to_nat (size_line - start))%nat by lia.
    rewrite Zrange_app. do 2 f_equal. lia. }
  assert (Hbefore : filter (in_window line nu_end nu_start)
                      (Zrange 0 (Z.to_nat start)) = []).
  { apply filter_none. intros a Ha. apply Zrange_In in Ha.
    apply in_window_false. assert (nu_start < line a) by (apply S2; lia). lra. }
  assert (Hwin : window_lines storage nu z i
                 = filter (in_window line nu_end nu_start)
                     (Zrange start (Z.to_nat (size_line - start)))).
  { unfold window_lines. fold line size_line nu_start nu_end.
    rewrite Hsplit, filter_app, Hbefore. reflexivity. }
  destruct (line_walk_window line exp_tau att_S_ul nu_end nu_start
              (shell_id i * size_line)%Z (Z.to_nat (size_line - start)) start I)
    as (W & m & Hm & Hf & Hstop).
  { intros a H1 H2. destruct (Z.eq_dec a start) as [->|Hne]; [apply S3; lia|].
    apply Rle_trans with (line start); [|apply S3; lia].
    apply Rlt_le, Hdesc; fold size_line; lia. }
  { intros a c H1 H2 H3. apply Hdesc; fold size_line; lia. }
  split; [repeat split; assumption|]. split.
  - exists m. rewrite Hwin, Hf. repeat split; [lia|].
    intros Hlt. apply Hstop. lia.
  - unfold segment_body. fold line size_line nu_start nu_end start.
    rewrite W, Hwin. reflexivity.
Qed.

Lemma segment_crosses_window_witness :
  segment_body two_shells (fun _ => 1 / 10) 15 (fun _ => 1 / 2)
    (of_list 0 [2; 1]) (fun _ => 0%Z) 0 7
  = fold_left (cross_line two_shells (fun _ => 1 / 2) (fun _ => 1 / 10) 0)
      (window_lines two_shells 15 (of_list 0 [2; 1]) 0) 7.
Proof.
  exact (proj2 (proj2
           (segment_crosses_window two_shells (fun _ => 1 / 10) 15
              (fun _ => 1 / 2) (of_list 0 [2; 1]) (fun _ => 0%Z) 0 7
              two_shells_descending))).
Defined.

(** A counted loop is the fold of its body over the indices it visits. *)
Lemma for_loop_as_fold {St : Type} (body : Z -> St -> St) (n : nat) :
  forall (i : Z) (s : St),
    for_loop body i n s = fold_left (fun t k => body k t) (Zrange i n) s.
Proof.
  induction n as [|n IH]; intros i s; [reflexivity|].
  rewrite for_loop_S. cbn [Zrange fold_left]. apply IH.
Qed.

Lemma fold_left_agree {A B : Type} (f g : A -> B -> A) (l : list B) :
  forall a : A,
    (forall (x : B) (c : A), In x l -> f c x = g c x) ->
    fold_left f l a = fold_left g l a.
Proof.
  induction l as [|x l IH]; intros a H; [reflexivity|].
  cbn [fold_left]. rewrite (H x a) by (left; reflexivity).
  apply IH. intros y c Hy. apply H. now right.
Qed.

(** C2.  On a descending line list, for every frequency [nu] and every ray
    [p = pp[p_idx]], with the intersection record that [populate_z] leaves
    for the ray: for every segment [i] of the record ([0 <= i < count - 1])
    the locator gives the first line at or below [nu * z[i]], the lines of
    the segment's window (rest frequency from [nu * z[i+1]] up to
    [nu * z[i]], ends included) are the consecutive lines from there up to
    the first line below [nu * z[i+1]], and the segment applies
    [I <- I * exp_tau[line] + source_function[line]] to exactly these lines,
    in descending-frequency order, in the table row of the segment's shell;
    the walk of the ray does this for the segments [0 .. count - 2] in
    order, starting from the seed, and the cell [I_nu[p_idx]] receives the
    result times [p]. *)
Theorem ray_crosses_windows
    (storage : storage_model_t) (iT : R) (att_S_ul : array R) (nu : R)
    (p_idx : Z) (s : scratch) :
  let p := pp s p_idx in
  let res := populate_z storage p (mk_crossings (z s) (shell_id s)) in
  let size_z := fst res in
  let b := snd res in
  let line := line_list_nu storage in
  let size_line := no_of_lines storage in
  descending_lines storage ->
  (forall i : Z, (0 <= i)%Z -> (i < size_z - 1)%Z ->
     let nu_start := nu * oz b i in
     let nu_end := nu * oz b (i + 1)%Z in
     let start := line_search line nu_start size_line in
     ((0 <= start)%Z /\
      (forall j : Z, (0 <= j)%Z -> (j < start)%Z -> nu_start < line j) /\
      ((start < size_line)%Z -> line start <= nu_start)) /\
     (exists m : nat,
        window_lines storage nu (oz b) i = Zrange start m /\
        (start + Z.of_nat m <= Z.max 0 size_line)%Z /\
        ((start + Z.of_nat m < size_line)%Z ->
         line (start + Z.of_nat m)%Z < nu_end)) /\
     (forall I : R,
        segment_body storage att_S_ul nu (exp_tau s) (oz b) (oshell_id b) i I
        = fold_left
            (cross_line storage (exp_tau s) att_S_ul (oshell_id b i))
            (window_lines storage nu (oz b) i) I)) /\
  ray_intensity storage iT att_S_ul nu p (exp_tau s) size_z b
  = ray_spec storage iT att_S_ul nu p (exp_tau s) size_z b /\
  I_nu (ray_body storage iT att_S_ul nu p_idx s) p_idx
  = ray_spec storage iT att_S_ul nu p (exp_tau s) size_z b * p.
Proof.
  intros p res size_z b line size_line Hdesc.
  assert (Hseg : forall (i : Z) (I : R),
             segment_body storage att_S_ul nu (exp_tau s) (oz b) (oshell_id b) i I
             = segment_spec storage att_S_ul nu (exp_tau s) b I i).
  { intros i I.
    exact (proj2 (proj2 (segment_crosses_window storage att_S_ul nu (exp_tau s)
                           (oz b) (oshell_id b) i I Hdesc))). }
  assert (Hray : ray_intensity storage iT att_S_ul nu p (exp_tau s) size_z b
                 = ray_spec storage iT att_S_ul nu p (exp_tau s) size_z b).
  { unfold ray_intensity, ray_spec, for_range. rewrite Z.sub_0_r.
    rewrite for_loop_as_fold. apply fold_left_agree.
    intros i I _. apply Hseg. }
  split; [|split; [exact Hray|]].
  - intros i Hi0 Hi1 nu_start nu_end start.
    destruct (segment_crosses_window storage att_S_ul nu (exp_tau s)
                (oz b) (oshell_id b) i 0 Hdesc) as (H1 & H2 & _).
    split; [exact H1|]. split; [exact H2|]. intros I. apply Hseg.
  - unfold ray_body. fold p. fold res.
    rewrite <- Hray. unfold size_z, b.
    destruct res as [sz b0]. cbn [I_nu fst snd]. now rewrite upd_same.
Qed.

Lemma ray_crosses_windows_witness :
  I_nu (ray_body two_shells 5000 (fun _ => 1 / 10) 15 1 (stack_of 1)) 1%Z
  = ray_spec two_shells 5000 (fun _ => 1 / 10) 15 (pp (stack_of 1) 1%Z)
      (exp_tau (stack_of 1))
      (fst (populate_z two_shells (pp (stack_of 1) 1%Z)
              (mk_crossings (z (stack_of 1)) (shell_id (stack_of 1)))))
      (snd (populate_z two_shells (pp (stack_of 1) 1%Z)
              (mk_crossings (z (stack_of 1)) (shell_id (stack_of 1)))))
    * pp (stack_of 1) 1%Z.
Proof.
  exact (proj2 (proj2
           (ray_crosses_windows two_shells 5000 (fun _ => 1 / 10) 15 1
              (stack_of 1) two_shells_descending))).
Defined.

(** The window of that segment holds the first two lines. *)
Example two_shells_window :
  window_lines two_shells 15 (of_list 0 [2; 1]) 0 = [0%Z; 1%Z].
Proof.
  unfold window_lines, in_window. cells.
  repeat match goal with
         | |- context [Rle_dec ?a ?b] => destruct (Rle_dec a b); try lra
         end.
  reflexivity.
Qed.

(** ** Rays without line crossings *)

(** C6.  For every frequency [nu] and every impact parameter [p] (the cell
    [pp[p_idx]] of arbitrary thread arrays): if no line of the list has its
    rest frequency in the window from [nu * z[i+1]] up to [nu * z[i]] of any
    segment [i] of the intersection record of the ray, the intensity stored
    for the ray is its seed, [intensity_black_body nu iT] when
    [p <= r_inner[0]] and 0 otherwise, multiplied by [p]. *)
Theorem zero_crossings_keep_seed
    (storage : storage_model_t) (iT : R) (att_S_ul : array R) (nu : R)
    (p_idx : Z) (s : scratch) :
  let p := pp s p_idx in
  let res := populate_z storage p (mk_crossings (z s) (shell_id s)) in
  (forall i j : Z,
      (0 <= i)%Z -> (i < fst res - 1)%Z ->
      (0 <= j)%Z -> (j < no_of_lines storage)%Z ->
      ~ nu * oz (snd res) (i + 1)%Z <= line_list_nu storage j
          <= nu * oz (snd res) i) ->
  I_nu (ray_body storage iT att_S_ul nu p_idx s) p_idx
  = (if Rle_dec p (r_inner storage 0%Z) then intensity_black_body nu iT else 0)
    * p.
Proof.
  intros p res Hnone. unfold ray_body. fold p. fold res.
  destruct res as [size_z b] eqn:Eres. cbn [I_nu]. rewrite upd_same.
  f_equal. unfold ray_intensity, for_range.
  apply for_loop_invariant; [reflexivity|].
  intros i I Hi1 Hi2 ->. unfold segment_body.
  destruct (line_search_spec (line_list_nu storage) (nu * oz b i)
              (no_of_lines storage)) as (S0 & S1 & S2 & S3).
  apply line_walk_no_crossing with (nu_start := nu * oz b i).
  - intros Hn. apply S3. lia.
  - intros Hn. apply (Hnone i); simpl; lia.
Qed.

Lemma zero_crossings_keep_seed_witness :
  I_nu (ray_body two_shells 5000 (fun _ => 0) 1 1 (stack_of 1)) 1%Z
  = (if Rle_dec 1 (r_inner two_shells 0%Z)
     then intensity_black_body 1 5000 else 0) * 1.
Proof.
  apply (zero_crossings_keep_seed two_shells 5000 (fun _ => 0) 1 1 (stack_of 1)).
  cbv zeta. change (pp (stack_of 1) 1%Z) with 1.
  assert (Hp : 1 <= r_inner two_shells 0%Z) by (cells; lra).
  intros i j Hi1 Hi2 Hj1 Hj2.
  unfold populate_z in Hi2. rewrite photosphere_trace in Hi2 by assumption.
  simpl in Hi2, Hj2. assert (i = 0%Z) by lia. subst i.
  destruct (photosphere_arrays two_shells 1
              (mk_crossings (z (stack_of 1)) (shell_id (stack_of 1))) 0%Z Hp)
    as [E _]; [lia | simpl; lia |].
  rewrite E.
  assert (0 <= z_of two_shells 1 0%Z)
    by (apply calculate_z_nonneg; simpl; lra).
  assert (10 <= line_list_nu two_shells j).
  { assert (Hj : (j = 0 \/ j = 1 \/ j = 2)%Z) by lia.
    destruct Hj as [-> | [-> | ->]]; cells; lra. }
  lra.
Defined.

(** ** The arrays of a thread *)

Lemma ray_body_pp (storage : storage_model_t) (iT : R) (att_S_ul : array R)
    (nu : R) (p_idx : Z) (s : scratch) :
  pp (ray_body storage iT att_S_ul nu p_idx s) = pp s.
Proof. unfold ray_body. destruct (populate_z _ _ _). reflexivity. Qed.

Lemma ray_body_I_nu_other (storage : storage_model_t) (iT : R)
    (att_S_ul : array R) (nu : R) (p_idx j : Z) (s : scratch) :
  j <> p_idx -> I_nu (ray_body storage iT att_S_ul nu p_idx s) j = I_nu s j.
Proof.
  intros H. unfold ray_body. destruct (populate_z _ _ _). cbn [I_nu].
  now apply upd_other.
Qed.

(** The loop over impact parameters starts at index 1: it never writes
    [I_nu[0]], and it leaves [pp] alone. *)
Lemma rays_keep_slot_zero (storage : storage_model_t) (iT : R)
    (att_S_ul : array R) (nu : R) (N : Z) (s : scratch) :
  let s' := for_range 1 N (ray_body storage iT att_S_ul nu) s in
  I_nu s' 0%Z = I_nu s 0%Z /\ pp s' = pp s.
Proof.
  unfold for_range.
  apply (for_loop_invariant (fun t => I_nu t 0%Z = I_nu s 0%Z /\ pp t = pp s)).
  - split; reflexivity.
  - intros k t H1 H2 [E1 E2]. split.
    + rewrite ray_body_I_nu_other by lia. exact E1.
    + rewrite ray_body_pp. exact E2.
Qed.

(** Whatever bins a thread has run, the cell [I_nu[0]] that
    [trapezoid_integration] reads as its left boundary sample holds what the
    stack held there when the thread started. *)
Lemma bins_keep_slot_zero (storage : storage_model_t) (iT : R)
    (inu att_S_ul : array R) (N : Z) (bins : list Z) :
  forall (s : scratch) (L : array R),
    let st := fold_left
                (fun st nu_idx => freq_body storage iT inu att_S_ul N nu_idx st)
                bins (s, L) in
    I_nu (fst st) 0%Z = I_nu s 0%Z /\ pp (fst st) = pp s.
Proof.
  induction bins as [|nu_idx bins IH]; intros s L; cbn [fold_left].
  - split; reflexivity.
  - destruct (freq_body storage iT inu att_S_ul N nu_idx (s, L))
      as [s1 L1] eqn:E.
    assert (Es : s1 = for_range 1 N (ray_body storage iT att_S_ul (inu nu_idx)) s)
      by (unfold freq_body in E; now injection E).
    destruct (rays_keep_slot_zero storage iT att_S_ul (inu nu_idx) N s)
      as [E1 E2].
    rewrite <- Es in E1, E2.
    destruct (IH s1 L1) as [F1 F2].
    split; [now rewrite F1 | now rewrite F2].
Qed.

(** A model without lines: no segment changes the intensity. *)
Lemma no_lines_ray_intensity (storage : storage_model_t) (iT : R)
    (att_S_ul : array R) (nu p : R) (exp_tau : array R) (size_z : Z)
    (b : crossings) :
  no_of_lines storage = 0%Z ->
  ray_intensity storage iT att_S_ul nu p exp_tau size_z b
  = if Rle_dec p (r_inner storage 0%Z) then intensity_black_body nu iT else 0.
Proof.
  intros Hno. unfold ray_intensity, for_range.
  apply for_loop_invariant; [reflexivity|].
  intros i I _ _ ->. unfold segment_body, line_search. rewrite Hno.
  reflexivity.
Qed.

(** ** The driver on [one_shell] with two samples *)

Lemma one_shell_rays (iT : R) (att_S_ul : array R) (nu : R) (s : scratch) :
  pp s 1%Z = 2 ->
  let s' := for_range 1 2 (ray_body one_shell iT att_S_ul nu) s in
  I_nu s' 0%Z = I_nu s 0%Z /\ I_nu s' 1%Z = 0 /\ pp s' = pp s.
Proof.
  intros Hpp s'.
  destruct (rays_keep_slot_zero one_shell iT att_S_ul nu 2 s) as [E1 E2].
  fold s' in E1, E2. repeat split; try assumption.
  unfold s', for_range. change (Z.to_nat (2 - 1)) with 1%nat.
  cbn [for_loop]. unfold ray_body.
  destruct (populate_z one_shell (pp s 1%Z)
              {| oz := z s; oshell_id := shell_id s |}) as [size_z b].
  cbn [I_nu]. rewrite upd_same, no_lines_ray_intensity by reflexivity.
  rewrite Hpp. cells.
  destruct (Rle_dec 2 1) as [H|_]; lra.
Qed.

Lemma one_shell_luminosity (iT : R) (inu att_S_ul : array R) (nu_idx : Z)
    (s : scratch) (L : array R) :
  pp s 1%Z = 2 ->
  snd (freq_body one_shell iT inu att_S_ul 2 nu_idx (s, L)) nu_idx
  = 4 * M_PI * M_PI * I_nu s 0%Z.
Proof.
  intros Hpp. unfold freq_body. cbn [snd]. rewrite upd_same.
  destruct (one_shell_rays iT att_S_ul (inu nu_idx) s Hpp) as (E0 & E1 & _).
  set (s' := for_range 1 2 (ray_body one_shell iT att_S_ul (inu nu_idx)) s) in *.
  unfold trapezoid_integration, for_range.
  change (Z.to_nat (2 - 1 - 1)) with 0%nat. cbn [for_loop].
  change (2 - 1)%Z with 1%Z. rewrite E0, E1. cells. field.
Qed.

Lemma one_shell_thread_last (iT : R) (inu att_S_ul : array R) (L : array R)
    (s0 : scratch) (bins : list Z) (nu_idx : Z) :
  thread_run one_shell iT inu att_S_ul 2 L (s0, bins ++ [nu_idx]) nu_idx
  = 4 * M_PI * M_PI * I_nu s0 0%Z.
Proof.
  unfold thread_run. rewrite fold_left_app. cbn [fold_left].
  destruct (bins_keep_slot_zero one_shell iT inu att_S_ul 2 bins
              (thread_setup one_shell 2 s0) L) as [E1 E2].
  destruct (fold_left _ bins _) as [s1 L1]. cbn [fst] in E1, E2.
  rewrite one_shell_luminosity.
  - now rewrite E1.
  - rewrite E2. cbn [thread_setup pp].
    pose proof (last_ray_is_outermost_radius one_shell 2 (pp s0)) as E.
    change (2 - 1)%Z with 1%Z in E. rewrite E by lia. cells. reflexivity.
Qed.

(** ** The claims on the driver *)

(** C1 fails.  The cell [I_nu[0]] read by [trapezoid_integration] as the left
    boundary sample holds, in every frequency bin of every thread, what the
    thread's stack held there on entry; on [one_shell] with a stack holding 1
    the value read is 1, not 0. *)
Theorem left_boundary_sample_is_stack_content :
  (forall (storage : storage_model_t) (iT : R) (inu att_S_ul : array R) (N : Z)
          (s0 : scratch) (L : array R) (bins : list Z) (nu : R),
      let before :=
        fst (fold_left
               (fun st nu_idx => freq_body storage iT inu att_S_ul N nu_idx st)
               bins (thread_setup storage N s0, L)) in
      I_nu (for_range 1 N (ray_body storage iT att_S_ul nu) before) 0%Z
      = I_nu s0 0%Z) /\
  I_nu (for_range 1 2 (ray_body one_shell 5000 (fun _ => 0) 1)
          (thread_setup one_shell 2 (stack_of 1))) 0%Z = 1 /\
  I_nu (for_range 1 2 (ray_body one_shell 5000 (fun _ => 0) 1)
          (thread_setup one_shell 2 (stack_of 1))) 0%Z <> 0.
Proof.
  assert (G : forall (storage : storage_model_t) (iT : R)
                     (inu att_S_ul : array R) (N : Z)
                     (s0 : scratch) (L : array R) (bins : list Z) (nu : R),
             I_nu (for_range 1 N (ray_body storage iT att_S_ul nu)
                     (fst (fold_left
                             (fun st nu_idx =>
                                freq_body storage iT inu att_S_ul N nu_idx st)
                             bins (thread_setup storage N s0, L)))) 0%Z
             = I_nu s0 0%Z).
  { intros storage iT inu att_S_ul N s0 L bins nu.
    destruct (rays_keep_slot_zero storage iT att_S_ul nu N
                (fst (fold_left
                        (fun st nu_idx =>
                           freq_body storage iT inu att_S_ul N nu_idx st)
                        bins (thread_setup storage N s0, L)))) as [E _].
    rewrite E.
    destruct (bins_keep_slot_zero storage iT inu att_S_ul N bins
                (thread_setup storage N s0) L) as [F _].
    rewrite F. reflexivity. }
  split; [exact G|].
  pose proof (G one_shell 5000 (fun _ => 1) (fun _ => 0) 2%Z (stack_of 1)
                (fun _ => 0) [] 1) as E.
  cbn [fold_left fst] in E. rewrite E. cbn [stack_of I_nu]. split; lra.
Qed.

(** C7 fails, from the same uninitialised cell [I_nu[0]]: the luminosity of
    a bin contains the stack content of the thread that ran it.  On
    [one_shell] with two samples and two frequency bins, one thread whose
    stack holds 0 yields 0 in bin 1; two threads, the second with a stack
    holding 1, yield [4 * M_PI * M_PI] there. *)
Theorem spectrum_depends_on_team :
  let inu : array R := fun _ => 1 in
  let att_S_ul : array R := fun _ => 0 in
  let one := sequential_team 2 (stack_of 0) in
  let two := [(stack_of 0, [0%Z]); (stack_of 1, [1%Z])] in
  shares_bins 2 one /\ shares_bins 2 two /\
  formal_integral_spectrum one_shell 5000 inu att_S_ul 2 one 1%Z = 0 /\
  formal_integral_spectrum one_shell 5000 inu att_S_ul 2 two 1%Z
  = 4 * M_PI * M_PI /\
  formal_integral_spectrum one_shell 5000 inu att_S_ul 2 one 1%Z
  <> formal_integral_spectrum one_shell 5000 inu att_S_ul 2 two 1%Z.
Proof.
  intros inu att_S_ul one two.
  assert (S1 : shares_bins 2 one).
  { intros k. unfold one, sequential_team.
    change (Zrange 0 (Z.to_nat 2)) with [0%Z; 1%Z].
    cbn [List.concat map snd app count_occ].
    destruct (Z.eq_dec 0 k), (Z.eq_dec 1 k), (0 <=? k)%Z eqn:E1,
             (k <? 2)%Z eqn:E2; cbn [andb]; try reflexivity; zbool; lia. }
  assert (S2 : shares_bins 2 two).
  { intros k. unfold two. cbn [List.concat map snd app count_occ].
    destruct (Z.eq_dec 0 k), (Z.eq_dec 1 k), (0 <=? k)%Z eqn:E1,
             (k <? 2)%Z eqn:E2; cbn [andb]; try reflexivity; zbool; lia. }
  assert (V1 : formal_integral_spectrum one_shell 5000 inu att_S_ul 2 one 1%Z = 0).
  { unfold formal_integral_spectrum, one, sequential_team. cbn [fold_left].
    change (Zrange 0 (Z.to_nat 2)) with ([0%Z] ++ [1%Z]).
    rewrite one_shell_thread_last. cbn [stack_of I_nu]. lra. }
  assert (V2 : formal_integral_spectrum one_shell 5000 inu att_S_ul 2 two 1%Z
               = 4 * M_PI * M_PI).
  { unfold formal_integral_spectrum, two. cbn [fold_left].
    change [1%Z] with ([] ++ [1%Z]).
    rewrite one_shell_thread_last. cbn [stack_of I_nu]. lra. }
  repeat split; try assumption.
  rewrite V1, V2. pose proof M_PI_pos. nra.
Qed.


Lemma deep_shells_monotonic : monotonic_radii deep_shells = true.
Proof.
  unfold monotonic_radii. cells.
  destruct (Rlt_dec 2 3) as [_|H]; [reflexivity | lra].
Qed.




(** The hypothesis of C8 (amended) matters: on [deep_shells] with two
    samples, valid input on which every ray hits the photosphere, the call
    stays in bounds and returns its spectrum. *)
Lemma valid_geometry_returns_spectrum :
  invalid_geometry deep_shells 2 = false /\
  _formal_integral deep_shells 5000 (fun _ => 1) 1 (fun _ => 0) 2
    (sequential_team 1 (stack_of 0))
  = Spectrum (formal_integral_spectrum deep_shells 5000 (fun _ => 1)
                (fun _ => 0) 2 (sequential_team 1 (stack_of 0))).
Proof.
  split.
  - unfold invalid_geometry. rewrite deep_shells_monotonic. reflexivity.
  - unfold _formal_integral.
    replace (forallb _ _) with true; [reflexivity|].
    unfold sequential_team. change (Zrange 0 (Z.to_nat 1)) with [0%Z].
    cbn [forallb]. unfold thread_in_bounds. cbn [fold_left fst snd].
    unfold bin_in_bounds, for_range. change (Z.to_nat (2 - 1)) with 1%nat.
    cbn [for_loop fst snd]. unfold ray_in_bounds.
    set (s := thread_setup deep_shells 2 (stack_of 0)).
    assert (Hp : pp s 1%Z <= r_inner deep_shells 0%Z).
    { unfold s. cbn [thread_setup pp].
      pose proof (last_ray_is_outermost_radius deep_shells 2 (pp (stack_of 0)))
        as E.
      change (2 - 1)%Z with 1%Z in E. rewrite E by lia. cells. lra. }
    destruct (photosphere_arrays deep_shells (pp s 1%Z)
                {| oz := z s; oshell_id := shell_id s |} 0%Z Hp)
      as [_ E]; [lia | simpl; lia |].
    unfold populate_z in *. rewrite photosphere_trace in * by assumption.
    cbn [snd] in E. unfold record_in_bounds.
    change (Zrange 0 (Z.to_nat (no_of_shells deep_shells - 1))) with [0%Z].
    cbn [forallb]. rewrite E. reflexivity.
Qed.

(** The flag of the bounds check, once down, stays down. *)
Lemma thread_flag_stays_down (storage : storage_model_t) (iT : R)
    (inu : array R) (inu_size : Z) (att_S_ul : array R) (N : Z)
    (bins : list Z) :
  forall s : scratch,
    snd (fold_left
           (fun (st : scratch * bool) nu_idx =>
              (for_range 1 N (ray_body storage iT att_S_ul (inu nu_idx)) (fst st),
               snd st && (0 <=? nu_idx)%Z && (nu_idx <? inu_size)%Z
               && bin_in_bounds storage iT att_S_ul (inu nu_idx) N (fst st)))
           bins (s, false)) = false.
Proof.
  induction bins as [|b0 bins IH]; intros s; [reflexivity|].
  cbn [fold_left fst snd andb]. apply IH.
Qed.

(** With at least two samples, on strictly increasing radii with the
    photosphere inside the outermost radius, the last ray of a bin reads the
    record beyond the arrays [z] and [shell_id]. *)
Lemma last_ray_out_of_bounds (storage : storage_model_t) (iT : R)
    (att_S_ul : array R) (nu : R) (N : Z) (s0 : scratch) :
  increasing_radii storage ->
  r_inner storage 0%Z < r_outer storage (no_of_shells storage - 1)%Z ->
  (0 <= no_of_shells storage)%Z ->
  (2 <= N)%Z ->
  bin_in_bounds storage iT att_S_ul nu N (thread_setup storage N s0) = false.
Proof.
  intros Hinc Hph HS HN. unfold bin_in_bounds, for_range.
  replace (Z.to_nat (N - 1)) with (S (Z.to_nat (N - 2))) by lia.
  rewrite for_loop_snoc. cbn [snd].
  set (prev := for_loop _ 1 (Z.to_nat (N - 2)) _).
  assert (Hpp : pp (fst prev) = pp (thread_setup storage N s0)).
  { unfold prev.
    apply (for_loop_invariant
             (fun t : scratch * bool => pp (fst t) = pp (thread_setup storage N s0))).
    - reflexivity.
    - intros k t _ _ E. cbn [fst]. now rewrite ray_body_pp. }
  replace (1 + Z.of_nat (Z.to_nat (N - 2)))%Z with (N - 1)%Z by lia.
  unfold ray_in_bounds. rewrite Hpp. cbn [thread_setup pp].
  rewrite last_ray_is_outermost_radius by lia.
  unfold populate_z. rewrite beyond_outermost_trace by (assumption || lra).
  unfold record_in_bounds.
  destruct (2 * (no_of_shells storage + 1) - 1 <=? 0)%Z eqn:E1,
           (2 * (no_of_shells storage + 1) <=? 2 * no_of_shells storage)%Z eqn:E2;
    zbool; try lia; cbn [orb andb]; apply andb_false_r.
Qed.

(** So every call with at least two samples on such a model that runs a
    frequency bin has undefined behaviour: the overrun of the last ray. *)
Lemma last_ray_overrun_is_undefined (storage : storage_model_t) (iT : R)
    (inu : array R) (inu_size : Z) (att_S_ul : array R) (N : Z)
    (s0 : scratch) (nu_idx : Z) (bins : list Z)
    (team : list (scratch * list Z)) :
  increasing_radii storage ->
  r_inner storage 0%Z < r_outer storage (no_of_shells storage - 1)%Z ->
  (2 <= N)%Z ->
  _formal_integral storage iT inu inu_size att_S_ul N
    ((s0, nu_idx :: bins) :: team) = Undefined.
Proof.
  intros Hinc Hph HN. unfold _formal_integral.
  destruct (vla_sizes_ok storage N) eqn:EV; [|reflexivity].
  assert (HS : (0 <= no_of_shells storage)%Z).
  { unfold vla_sizes_ok in EV.
    destruct (0 <? 2 * no_of_shells storage)%Z eqn:E;
      [zbool; lia | now rewrite andb_false_r in EV]. }
  cbn [forallb andb]. unfold thread_in_bounds at 1. cbn [fold_left fst snd].
  rewrite last_ray_out_of_bounds by assumption.
  rewrite andb_false_r, thread_flag_stays_down. reflexivity.
Qed.

(** * Further properties of the code *)

(** ** [trapezoid_integration] *)

(** Two loops whose bodies agree at the indices they visit agree. *)
Lemma for_loop_ext {St : Type} (f g : Z -> St -> St) (n : nat) :
  forall (i : Z) (s : St),
    (forall (k : Z) (t : St),
        (i <= k)%Z -> (k < i + Z.of_nat n)%Z -> f k t = g k t) ->
    for_loop f i n s = for_loop g i n s.
Proof.
  induction n as [|n IH]; intros i s H; [reflexivity|].
  rewrite !for_loop_S. rewrite (H i s) by lia.
  apply IH. intros k t H1 H2. apply H; lia.
Qed.

Lemma sum_affine (a b : R) (n : nat) :
  forall (lo : Z) (r0 : R),
    for_loop (fun idx r => r + (a + b * IZR idx)) lo n r0
    = r0 + INR n * a + b * (INR n * IZR lo + INR n * (INR n - 1) / 2).
Proof.
  induction n as [|n IH]; intros lo r0.
  - simpl. lra.
  - rewrite for_loop_S, IH, S_INR, plus_IZR. field.
Qed.

Lemma sum_mix (a b : array R) (c d : R) (n : nat) :
  forall (lo : Z) (ra rb : R),
    for_loop (fun idx r => r + (c * a idx + d * b idx)) lo n (c * ra + d * rb)
    = c * for_loop (fun idx r => r + a idx) lo n ra
      + d * for_loop (fun idx r => r + b idx) lo n rb.
Proof.
  induction n as [|n IH]; intros lo ra rb; [reflexivity|].
  rewrite !for_loop_S. rewrite <- IH. f_equal. ring.
Qed.

Lemma sum_monotone (a b : array R) (n : nat) :
  forall (lo : Z) (ra rb : R),
    ra <= rb ->
    (forall i : Z, (lo <= i)%Z -> (i < lo + Z.of_nat n)%Z -> a i <= b i) ->
    for_loop (fun idx r => r + a idx) lo n ra
    <= for_loop (fun idx r => r + b idx) lo n rb.
Proof.
  induction n as [|n IH]; intros lo ra rb Hr H; [exact Hr|].
  rewrite !for_loop_S. apply IH.
  - assert (a lo <= b lo) by (apply H; lia). lra.
  - intros i H1 H2. apply H; lia.
Qed.

(** X1.  On [N >= 2] samples that all hold [c], the rule returns
    [c * h * (N - 1)]. *)
Theorem trapezoid_constant (arr : array R) (h c : R) (N : Z) :
  (2 <= N)%Z ->
  (forall i : Z, (0 <= i)%Z -> (i < N)%Z -> arr i = c) ->
  trapezoid_integration arr h N = c * h * IZR (N - 1).
Proof.
  intros HN Hc. unfold trapezoid_integration, for_range.
  rewrite (for_loop_ext _ (fun idx r => r + (c + 0 * IZR idx)))
    by (intros k t H1 H2; rewrite Hc by lia; ring).
  rewrite sum_affine, !Hc by lia.
  rewrite INR_IZR_INZ, Z2Nat.id by lia.
  rewrite !minus_IZR. field.
Qed.

Lemma trapezoid_constant_witness :
  trapezoid_integration (fun _ => 7) (1 / 2) 5 = 7 * (1 / 2) * IZR (5 - 1).
Proof.
  apply (trapezoid_constant (fun _ => 7) (1 / 2) 7 5); [lia|].
  intros i _ _. reflexivity.
Defined.

(** X2.  The rule is exact on samples of an affine function: on [N >= 2]
    samples [arr[i] = a + b * i] it returns the mean of the two end samples
    times the length [(N - 1) * h] of the interval. *)
Theorem trapezoid_exact_on_affine (arr : array R) (h a b : R) (N : Z) :
  (2 <= N)%Z ->
  (forall i : Z, (0 <= i)%Z -> (i < N)%Z -> arr i = a + b * IZR i) ->
  trapezoid_integration arr h N
  = (arr 0%Z + arr (N - 1)%Z) / 2 * (IZR (N - 1) * h).
Proof.
  intros HN Ha. unfold trapezoid_integration, for_range.
  rewrite (for_loop_ext _ (fun idx r => r + (a + b * IZR idx)))
    by (intros k t H1 H2; rewrite Ha by lia; ring).
  rewrite sum_affine, !Ha by lia.
  rewrite INR_IZR_INZ, Z2Nat.id by lia.
  rewrite !minus_IZR. field.
Qed.

Lemma trapezoid_exact_on_affine_witness :
  trapezoid_integration (fun i => 1 + 3 * IZR i) 2 4
  = ((1 + 3 * IZR 0) + (1 + 3 * IZR (4 - 1))) / 2 * (IZR (4 - 1) * 2).
Proof.
  apply (trapezoid_exact_on_affine (fun i => 1 + 3 * IZR i) 2 1 3 4); [lia|].
  intros i _ _. reflexivity.
Defined.

(** X3.  With at least one sample the rule reads the cells [0 .. N-1] and no
    other: two arrays that agree there give the same result. *)
Theorem trapezoid_reads_its_samples_only (a b : array R) (h : R) (N : Z) :
  (1 <= N)%Z ->
  (forall i : Z, (0 <= i)%Z -> (i < N)%Z -> a i = b i) ->
  trapezoid_integration a h N = trapezoid_integration b h N.
Proof.
  intros HN Hab. unfold trapezoid_integration, for_range.
  rewrite (for_loop_ext _ (fun idx r => r + b idx))
    by (intros k t H1 H2; rewrite Hab by lia; reflexivity).
  rewrite !Hab by lia. reflexivity.
Qed.

Lemma trapezoid_reads_its_samples_only_witness :
  trapezoid_integration (of_list 0 [1; 2; 3]) 1 3
  = trapezoid_integration (of_list 9 [1; 2; 3]) 1 3.
Proof.
  apply (trapezoid_reads_its_samples_only
           (of_list 0 [1; 2; 3]) (of_list 9 [1; 2; 3]) 1 3); [lia|].
  intros i H0 H1.
  assert (Hi : (i = 0 \/ i = 1 \/ i = 2)%Z) by lia.
  destruct Hi as [-> | [-> | ->]]; reflexivity.
Defined.

(** X4.  The rule is linear in the samples. *)
Theorem trapezoid_linear (a b : array R) (c d h : R) (N : Z) :
  trapezoid_integration (fun i => c * a i + d * b i) h N
  = c * trapezoid_integration a h N + d * trapezoid_integration b h N.
Proof.
  unfold trapezoid_integration, for_range.
  replace ((c * a 0%Z + d * b 0%Z + (c * a (N - 1)%Z + d * b (N - 1)%Z)) / 2)
    with (c * ((a 0%Z + a (N - 1)%Z) / 2) + d * ((b 0%Z + b (N - 1)%Z) / 2))
    by field.
  rewrite sum_mix. ring.
Qed.

(** X5.  With a non-negative step the rule is monotone in the samples. *)
Theorem trapezoid_monotone (a b : array R) (h : R) (N : Z) :
  (1 <= N)%Z ->
  0 <= h ->
  (forall i : Z, (0 <= i)%Z -> (i < N)%Z -> a i <= b i) ->
  trapezoid_integration a h N <= trapezoid_integration b h N.
Proof.
  intros HN Hh Hab. unfold trapezoid_integration, for_range.
  apply Rmult_le_compat_r; [exact Hh|].
  apply sum_monotone.
  - assert (a 0%Z <= b 0%Z) by (apply Hab; lia).
    assert (a (N - 1)%Z <= b (N - 1)%Z) by (apply Hab; lia). lra.
  - intros i H1 H2. apply Hab; lia.
Qed.

Lemma trapezoid_monotone_witness :
  trapezoid_integration (fun _ => 1) 2 3 <= trapezoid_integration (fun _ => 4) 2 3.
Proof.
  apply (trapezoid_monotone (fun _ => 1) (fun _ => 4) 2 3); [lia | lra |].
  intros i _ _. lra.
Defined.

(** ** [intensity_black_body] *)

Lemma planck_exponent_pos (nu T : R) :
  0 < nu -> 0 < T -> 0 < H_CGS * nu * (1 / (KB_CGS * T)).
Proof.
  intros Hnu HT.
  assert (0 < H_CGS) by (unfold H_CGS; lra).
  assert (0 < KB_CGS) by (unfold KB_CGS; lra).
  assert (0 < KB_CGS * T) by (apply Rmult_lt_0_compat; assumption).
  apply Rmult_lt_0_compat; [apply Rmult_lt_0_compat; assumption|].
  apply Rdiv_lt_0_compat; [lra | assumption].
Qed.

Lemma planck_coefficient_pos (nu : R) :
  0 < nu -> 0 < 2 * H_CGS * C_INV * C_INV * nu * nu * nu.
Proof.
  intros Hnu. pose proof C_INV_pos.
  assert (0 < H_CGS) by (unfold H_CGS; lra).
  assert (A1 : 0 < 2 * H_CGS) by lra.
  assert (A2 : 0 < 2 * H_CGS * C_INV) by (apply Rmult_lt_0_compat; assumption).
  assert (A3 : 0 < 2 * H_CGS * C_INV * C_INV)
    by (apply Rmult_lt_0_compat; assumption).
  assert (A4 : 0 < 2 * H_CGS * C_INV * C_INV * nu)
    by (apply Rmult_lt_0_compat; assumption).
  assert (A5 : 0 < 2 * H_CGS * C_INV * C_INV * nu * nu)
    by (apply Rmult_lt_0_compat; assumption).
  apply Rmult_lt_0_compat; assumption.
Qed.

(** X6.  For a positive frequency and a positive temperature the black-body
    intensity is positive. *)
Theorem intensity_black_body_pos (nu T : R) :
  0 < nu -> 0 < T -> 0 < intensity_black_body nu T.
Proof.
  intros Hnu HT. unfold intensity_black_body. cbv zeta.
  pose proof (planck_exponent_pos nu T Hnu HT) as Hx.
  pose proof (exp_increasing _ _ Hx) as He. rewrite exp_0 in He.
  apply Rdiv_lt_0_compat; [now apply planck_coefficient_pos | lra].
Qed.

Lemma intensity_black_body_pos_witness : 0 < intensity_black_body 1 5000.
Proof. apply (intensity_black_body_pos 1 5000); lra. Defined.

(** ** [calculate_z] *)

(** X8.  On a ray with [0 <= p < r] the half chord, the impact parameter
    and the radius satisfy Pythagoras' relation in units of [c * t_exp]:
    [z^2 = (r^2 - p^2) * (C_INV * inv_t)^2]. *)
Theorem calculate_z_chord (r p inv_t : R) :
  0 <= p -> p < r ->
  calculate_z r p inv_t * calculate_z r p inv_t
  = (r * r - p * p) * ((C_INV * inv_t) * (C_INV * inv_t)).
Proof.
  intros Hp Hr. rewrite calculate_z_hit by lra.
  assert (E : sqrt (r * r - p * p) * sqrt (r * r - p * p) = r * r - p * p)
    by (apply sqrt_sqrt; nra).
  rewrite <- E at 3. ring.
Qed.

Lemma calculate_z_chord_witness :
  calculate_z 5 3 2 * calculate_z 5 3 2
  = (5 * 5 - 3 * 3) * ((C_INV * 2) * (C_INV * 2)).
Proof. apply (calculate_z_chord 5 3 2); lra. Defined.

(** X9.  The half chord is dimensionless: scaling both lengths by [a > 0]
    and the explosion time with them leaves it unchanged. *)
Theorem calculate_z_scale_invariant (a r p inv_t : R) :
  0 < a -> 0 <= p ->
  calculate_z (a * r) (a * p) (inv_t / a) = calculate_z r p inv_t.
Proof.
  intros Ha Hp. destruct (Rle_dec r p) as [Hle|Hgt].
  - rewrite !calculate_z_miss; [reflexivity | assumption | nra].
  - rewrite !calculate_z_hit by nra.
    replace (a * r * (a * r) - a * p * (a * p))
      with ((a * a) * (r * r - p * p)) by ring.
    rewrite sqrt_mult by nra. rewrite sqrt_square by lra.
    field. lra.
Qed.

Lemma calculate_z_scale_invariant_witness :
  calculate_z (2 * 5) (2 * 3) (1 / 2) = calculate_z 5 3 1.
Proof. apply (calculate_z_scale_invariant 2 5 3 1); lra. Defined.

(** X10.  The half chord grows with the radius of the shell and shrinks
    with the impact parameter of the ray, rays that miss the shell
    included. *)
Theorem calculate_z_monotone (r1 r2 p1 p2 inv_t : R) :
  0 <= inv_t -> 0 <= p1 -> p1 <= p2 -> r1 <= r2 ->
  calculate_z r1 p2 inv_t <= calculate_z r2 p1 inv_t.
Proof.
  intros Ht Hp1 Hp Hr. destruct (Rle_dec r1 p2) as [Hle|Hgt].
  - rewrite (calculate_z_miss r1 p2) by assumption.
    now apply calculate_z_nonneg.
  - rewrite !calculate_z_hit by lra. pose proof C_INV_pos.
    apply Rmult_le_compat_r; [exact Ht|].
    apply Rmult_le_compat_r; [lra|].
    apply sqrt_le_1; nra.
Qed.

Lemma calculate_z_monotone_witness :
  calculate_z 4 3 1 <= calculate_z 5 2 1.
Proof. apply (calculate_z_monotone 4 5 2 3 1); lra. Defined.

(** ** [populate_z] on arbitrary input *)

(** A property that each iteration carries from its index to the next holds
    at the end of the loop. *)
Lemma for_loop_invariant_at {St : Type} (P : Z -> St -> Prop)
    (body : Z -> St -> St) (n : nat) :
  forall (i : Z) (s : St),
    P i s ->
    (forall (k : Z) (t : St),
        (i <= k)%Z -> (k < i + Z.of_nat n)%Z -> P k t -> P (k + 1)%Z (body k t)) ->
    P (i + Z.of_nat n)%Z (for_loop body i n s).
Proof.
  induction n as [|n IH]; intros i s Hs Hstep.
  - simpl. now rewrite Z.add_0_r.
  - rewrite for_loop_S.
    replace (i + Z.of_nat (S n))%Z with (i + 1 + Z.of_nat n)%Z by lia.
    apply IH.
    + apply Hstep; [lia | lia | exact Hs].
    + intros k t H1 H2. apply Hstep; lia.
Qed.

Lemma photosphere_writes_in_bounds (storage : storage_model_t) (p : R)
    (w : slot_write) :
  p <= r_inner storage 0%Z ->
  In w (fst (populate_z_trace storage p)) ->
  (0 <= w_idx w)%Z /\ (w_idx w < no_of_shells storage)%Z.
Proof.
  intros Hp Hw. rewrite photosphere_trace in Hw by assumption.
  cbn [fst] in Hw. apply in_map_iff in Hw. destruct Hw as (i & <- & Hi).
  apply Zrange_In in Hi. cbn [near_write w_idx]. lia.
Qed.

Lemma shell_writes_in_bounds (storage : storage_model_t) (p : R) (n : nat) :
  let N := no_of_shells storage in
  (Z.of_nat n <= N)%Z ->
  let st := for_loop (shell_body storage p) 0 n ((-1)%Z, []) in
  (fst st = (-1)%Z \/ (0 <= fst st)%Z /\ (fst st < Z.of_nat n)%Z) /\
  (forall w : slot_write, In w (snd st) ->
     (0 <= w_idx w)%Z /\ (w_idx w < 2 * N)%Z).
Proof.
  intros N Hn st. unfold st.
  apply (for_loop_invariant_at
           (fun i (t : Z * list slot_write) =>
              (fst t = (-1)%Z \/ (0 <= fst t)%Z /\ (fst t < i)%Z) /\
              (forall w : slot_write, In w (snd t) ->
                 (0 <= w_idx w)%Z /\ (w_idx w < 2 * N)%Z))).
  - split; [now left | intros w []].
  - intros i [offset ws] H1 H2 [Hoff Hws]. cbn [fst snd] in Hoff, Hws.
    unfold shell_body. fold N.
    destruct (Req_dec_T _ 0) as [_|_]; cbn [fst snd].
    + split; [|exact Hws]. destruct Hoff as [->|Hoff]; [now left | right; lia].
    + split.
      * right. destruct (Z.eqb_spec offset (-1)); lia.
      * intros w Hw. apply in_app_or in Hw. destruct Hw as [Hw|Hw];
          [now apply Hws|].
        destruct Hw as [<-|[<-|[]]]; cbn [w_idx];
          destruct (Z.eqb_spec offset (-1)); lia.
Qed.

Lemma populate_z_trace_in_bounds (storage : storage_model_t) (p : R)
    (w : slot_write) :
  In w (fst (populate_z_trace storage p)) ->
  (0 <= w_idx w)%Z /\ (w_idx w < 2 * no_of_shells storage)%Z.
Proof.
  intros Hw. destruct (Rle_dec p (r_inner storage 0%Z)) as [Hp|Hp].
  - destruct (photosphere_writes_in_bounds storage p w Hp Hw). lia.
  - unfold populate_z_trace in Hw.
    destruct (Rle_dec p (r_inner storage 0%Z)) as [H|_]; [contradiction|].
    unfold for_range in Hw. rewrite Z.sub_0_r in Hw.
    destruct (Z_lt_le_dec (no_of_shells storage) 0) as [Hneg|Hpos].
    + destruct (no_of_shells storage); try lia. simpl in Hw. contradiction.
    + pose proof (shell_writes_in_bounds storage p
                    (Z.to_nat (no_of_shells storage))) as B.
      cbv zeta in B.
      destruct (for_loop (shell_body storage p) 0
                  (Z.to_nat (no_of_shells storage)) ((-1)%Z, []))
        as [offset ws].
      cbn [fst snd] in B, Hw. apply B; [lia | exact Hw].
Qed.

(** X11.  Whatever the radii, the ray and the explosion time, [populate_z]
    writes only slots of [0, 2 * N): every write of its trace is there, and
    the cells of both arrays outside that range are left as they were. *)
Theorem populate_z_writes_within_capacity
    (storage : storage_model_t) (p : R) (b : crossings) :
  (forall w : slot_write,
      In w (fst (populate_z_trace storage p)) ->
      (0 <= w_idx w)%Z /\ (w_idx w < 2 * no_of_shells storage)%Z) /\
  (forall j : Z,
      (j < 0)%Z \/ (2 * no_of_shells storage <= j)%Z ->
      oz (snd (populate_z storage p b)) j = oz b j /\
      oshell_id (snd (populate_z storage p b)) j = oshell_id b j).
Proof.
  split; [intros w; apply populate_z_trace_in_bounds|].
  intros j Hj. unfold populate_z.
  destruct (populate_z_trace storage p) as [ws count] eqn:E. cbn [snd].
  apply fold_store_untouched. intros Hin.
  apply in_map_iff in Hin. destruct Hin as (w & <- & Hw).
  pose proof (populate_z_trace_in_bounds storage p w) as B.
  rewrite E in B. cbn [fst] in B. specialize (B Hw). lia.
Qed.

Lemma populate_z_writes_within_capacity_witness :
  oz (snd (populate_z bad_shells (5 / 2) blank)) 4%Z = oz blank 4%Z /\
  oshell_id (snd (populate_z bad_shells (5 / 2) blank)) 4%Z = oshell_id blank 4%Z.
Proof.
  apply (proj2 (populate_z_writes_within_capacity bad_shells (5 / 2) blank)).
  right. simpl. lia.
Defined.

Lemma shell_loop_offset_kept (storage : storage_model_t) (p : R) (n : nat) :
  forall (i offset : Z) (ws : list slot_write),
    offset <> (-1)%Z ->
    let st := for_loop (shell_body storage p) i n (offset, ws) in
    fst st = offset /\ (length (snd st) <= length ws + 2 * n)%nat.
Proof.
  induction n as [|n IH]; intros i offset ws Hoff.
  - simpl. split; [reflexivity | lia].
  - cbv zeta. rewrite for_loop_S.
    assert (E : shell_body storage p i (offset, ws) = (offset, ws) \/
                shell_body storage p i (offset, ws)
                = (offset, ws ++ shell_writes storage p offset i)).
    { unfold shell_body. destruct (Req_dec_T _ 0); [now left|right].
      apply Z.eqb_neq in Hoff. rewrite Hoff. reflexivity. }
    destruct E as [-> | ->].
    + destruct (IH (i + 1)%Z offset ws Hoff) as [E1 E2]. split; [exact E1 | lia].
    + destruct (IH (i + 1)%Z offset (ws ++ shell_writes storage p offset i) Hoff)
        as [E1 E2].
      split; [exact E1|]. rewrite length_app in E2. simpl in E2. lia.
Qed.

(** X12.  In the branch that misses the photosphere, whatever the radii:
    the count returned is fixed by the first intersected shell alone,
    [2 * (N - first)], and is [2 * (N + 1)] with nothing written when no
    shell is intersected; the number of slots written never exceeds it. *)
Theorem populate_z_count_any_radii (storage : storage_model_t) (p : R) :
  let N := no_of_shells storage in
  let first := first_intersected storage p in
  ~ p <= r_inner storage 0%Z ->
  (0 <= N)%Z ->
  snd (populate_z_trace storage p)
  = (if (first <? N)%Z then 2 * (N - first) else 2 * (N + 1))%Z /\
  (first = N -> fst (populate_z_trace storage p) = []) /\
  (Z.of_nat (length (fst (populate_z_trace storage p)))
   <= snd (populate_z_trace storage p))%Z.
Proof.
  intros N first Hp HN.
  pose proof (first_intersected_from_spec storage p (Z.to_nat N) 0%Z) as K.
  cbv zeta in K.
  change (first_intersected_from storage p 0 (Z.to_nat N)) with first in K.
  destruct K as (K1 & K2 & K3 & K4).
  destruct (Z.ltb_spec first N) as [Hlt|Hge].
  - unfold populate_z_trace. fold N.
    destruct (Rle_dec p (r_inner storage 0%Z)) as [H|_]; [contradiction|].
    unfold for_range. rewrite Z.sub_0_r.
    replace (Z.to_nat N) with (Z.to_nat first + S (Z.to_nat (N - first - 1)))%nat
      by lia.
    rewrite for_loop_split.
    rewrite shell_loop_skip by (intros j H1 H2; apply K3; lia).
    replace (0 + Z.of_nat (Z.to_nat first))%Z with first by lia.
    rewrite for_loop_S. rewrite shell_body_hit by (apply K4; lia).
    simpl Z.eqb. cbv zeta.
    destruct (shell_loop_offset_kept storage p (Z.to_nat (N - first - 1))
                (first + 1)%Z first ([] ++ shell_writes storage p first first))
      as [E1 E2]; [lia|].
    destruct (for_loop (shell_body storage p) (first + 1)
                (Z.to_nat (N - first - 1))
                (first, [] ++ shell_writes storage p first first))
      as [offset ws].
    cbn [fst snd] in *. subst offset. repeat split; try lia.
    simpl in E2. lia.
  - assert (first = N) by lia.
    rewrite shell_trace_none.
    + cbn [fst snd length]. fold N. split; [lia|]. split; [reflexivity | lia].
    + exact Hp.
    + intros j H1 H2. apply K3; lia.
Qed.

Lemma populate_z_count_any_radii_witness :
  snd (populate_z_trace bad_shells (5 / 2))
  = (if (first_intersected bad_shells (5 / 2) <? 2)%Z
     then 2 * (2 - first_intersected bad_shells (5 / 2)) else 2 * (2 + 1))%Z.
Proof.
  apply (populate_z_count_any_radii bad_shells (5 / 2)).
  - cells. lra.
  - simpl. lia.
Defined.

(** ** The intersection record of a ray *)

(** X13.  For a ray between the photosphere and the outermost radius, on
    strictly increasing radii, the record is symmetric about the point of
    closest approach: the entries [j] and [count - 1 - j] belong to the same
    shell and their [z] values add up to 2. *)
Theorem populate_z_mirror
    (storage : storage_model_t) (p : R) (b : crossings) (j : Z) :
  let N := no_of_shells storage in
  let count := fst (populate_z storage p b) in
  let b' := snd (populate_z storage p b) in
  increasing_radii storage ->
  0 < inverse_time_explosion storage ->
  0 <= p ->
  (0 < N)%Z ->
  r_inner storage 0%Z < p ->
  p < r_outer storage (N - 1)%Z ->
  (0 <= j)%Z -> (j < count)%Z ->
  oz b' j + oz b' (count - 1 - j)%Z = 2 /\
  oshell_id b' j = oshell_id b' (count - 1 - j)%Z.
Proof.
  intros N count b' Hinc Ht Hp0 HN Hin Hout Hj0 Hj.
  assert (Htrace := misses_trace storage p).
  repeat (lapply Htrace; [clear Htrace; intro Htrace | assumption]).
  assert (Hcount : count = (2 * (N - first_intersected storage p))%Z).
  { unfold count, populate_z. rewrite Htrace. reflexivity. }
  destruct (first_intersected_facts storage p) as (K0 & K1 & _);
    try assumption.
  fold N in K1. rewrite Hcount in *.
  set (k := first_intersected storage p) in *.
  destruct (Z_lt_le_dec j (N - k)) as [Hfar|Hnear].
  - destruct (misses_arrays_by_shell storage p Hinc Ht Hp0 Hin HN Hout b
                (N - 1 - j)%Z) as (E1 & E2 & E3 & E4); [fold k; lia | lia |].
    fold N k b' in E1, E2, E3, E4.
    replace (N - (N - 1 - j) - 1)%Z with j in E1, E2 by lia.
    replace (N + (N - 1 - j) - 2 * k)%Z with (2 * (N - k) - 1 - j)%Z
      in E3, E4 by lia.
    rewrite E1, E2, E3, E4. split; [lra | reflexivity].
  - destruct (misses_arrays_by_shell storage p Hinc Ht Hp0 Hin HN Hout b
                (j - N + 2 * k)%Z) as (E1 & E2 & E3 & E4);
      [fold k; lia | fold N; lia |].
    fold N k b' in E1, E2, E3, E4.
    replace (N + (j - N + 2 * k) - 2 * k)%Z with j in E3, E4 by lia.
    replace (N - (j - N + 2 * k) - 1)%Z with (2 * (N - k) - 1 - j)%Z
      in E1, E2 by lia.
    rewrite E1, E2, E3, E4. split; [lra | reflexivity].
Qed.

Lemma populate_z_mirror_witness :
  oz (snd (populate_z two_shells (3 / 2) blank)) 0%Z
  + oz (snd (populate_z two_shells (3 / 2) blank))
      (fst (populate_z two_shells (3 / 2) blank) - 1 - 0)%Z = 2 /\
  oshell_id (snd (populate_z two_shells (3 / 2) blank)) 0%Z
  = oshell_id (snd (populate_z two_shells (3 / 2) blank))
      (fst (populate_z two_shells (3 / 2) blank) - 1 - 0)%Z.
Proof.
  assert (Ht : 0 < inverse_time_explosion two_shells) by (simpl; lra).
  assert (H1 : 0 <= 3 / 2) by lra.
  assert (H2 : (0 < no_of_shells two_shells)%Z) by (simpl; lia).
  assert (H3 : r_inner two_shells 0%Z < 3 / 2) by (cells; lra).
  assert (H4 : 3 / 2 < r_outer two_shells (no_of_shells two_shells - 1)%Z)
    by (cells; lra).
  apply (populate_z_mirror two_shells (3 / 2) blank 0
           two_shells_increasing Ht H1 H2 H3 H4); [lia|].
  unfold populate_z.
  rewrite (misses_trace two_shells (3 / 2) two_shells_increasing Ht H1 H3 H2 H4).
  cbn [fst].
  destruct (first_intersected_facts two_shells (3 / 2) Ht H1 H2 H4)
    as (K0 & K1 & _).
  lia.
Defined.

(** X14.  For a ray that hits the photosphere, on strictly increasing radii,
    the [z] values never increase from one shell to the next, and decrease
    strictly as soon as the ray is inside the outer of the two shells. *)
Theorem populate_z_photosphere_order
    (storage : storage_model_t) (p : R) (b : crossings) (i : Z) :
  let N := no_of_shells storage in
  let b' := snd (populate_z storage p b) in
  increasing_radii storage ->
  0 < inverse_time_explosion storage ->
  0 <= p ->
  p <= r_inner storage 0%Z ->
  (0 <= i)%Z -> (i + 1 < N)%Z ->
  oz b' (i + 1)%Z <= oz b' i /\
  (p < r_outer storage (i + 1)%Z -> oz b' (i + 1)%Z < oz b' i).
Proof.
  intros N b' Hinc Ht Hp0 Hp Hi0 Hi.
  destruct (photosphere_arrays storage p b i Hp) as [E1 _]; [lia | fold N; lia |].
  destruct (photosphere_arrays storage p b (i + 1)%Z Hp) as [E2 _];
    [lia | assumption |].
  fold b' in E1, E2. rewrite E1, E2. unfold z_of.
  assert (Hr : r_outer storage i < r_outer storage (i + 1)%Z)
    by (apply Hinc; fold N; lia).
  destruct (Rle_dec (r_outer storage (i + 1)%Z) p) as [Hout|Hinside].
  - rewrite !calculate_z_miss by lra. split; [lra | intros; lra].
  - assert (calculate_z (r_outer storage i) p (inverse_time_explosion storage)
            < calculate_z (r_outer storage (i + 1)%Z) p
                (inverse_time_explosion storage)).
    { destruct (Rle_dec (r_outer storage i) p) as [Hi_out|Hi_in].
      - rewrite (calculate_z_miss (r_outer storage i)) by assumption.
        apply calculate_z_pos; lra.
      - apply calculate_z_increasing; lra. }
    split; [lra | intros; lra].
Qed.

Lemma populate_z_photosphere_order_witness :
  oz (snd (populate_z two_shells 1 blank)) (0 + 1)%Z
  <= oz (snd (populate_z two_shells 1 blank)) 0%Z.
Proof.
  assert (Ht : 0 < inverse_time_explosion two_shells) by (simpl; lra).
  assert (H1 : 0 <= 1) by lra.
  assert (H2 : 1 <= r_inner two_shells 0%Z) by (cells; lra).
  apply (populate_z_photosphere_order two_shells 1 blank 0
           two_shells_increasing Ht H1 H2); simpl; lia.
Defined.

(** ** [calculate_p_values] *)

(** X15.  For [N >= 2] the samples start at 0, end at the outermost radius
    and are evenly spaced by [R_max / (N - 1)], hence strictly increasing
    when that radius is positive; no cell outside [0, N) is written. *)
Theorem calculate_p_values_grid
    (storage : storage_model_t) (N : Z) (opp : array R) :
  let R_max := r_outer storage (no_of_shells storage - 1)%Z in
  let pp' := calculate_p_values storage N opp in
  (2 <= N)%Z ->
  pp' 0%Z = 0 /\
  pp' (N - 1)%Z = R_max /\
  (forall i : Z, (0 <= i)%Z -> (i + 1 < N)%Z ->
     pp' (i + 1)%Z - pp' i = R_max / IZR (N - 1) /\
     (0 < R_max -> pp' i < pp' (i + 1)%Z)) /\
  (forall j : Z, (j < 0)%Z \/ (N <= j)%Z -> pp' j = opp j).
Proof.
  intros R_max pp' HN.
  assert (Hpos : 0 < IZR (N - 1)) by (apply IZR_lt; lia).
  repeat split.
  - unfold pp'. rewrite calculate_p_values_lookup by lia. ring.
  - unfold pp'. rewrite calculate_p_values_lookup by lia. fold R_max.
    field. lra.
  - unfold pp'. rewrite !calculate_p_values_lookup by lia. fold R_max.
    rewrite plus_IZR. field. lra.
  - intros HR. unfold pp'. rewrite !calculate_p_values_lookup by lia.
    fold R_max. rewrite plus_IZR.
    assert (0 < R_max / IZR (N - 1)) by (apply Rdiv_lt_0_compat; assumption).
    nra.
  - intros j Hj. unfold pp', calculate_p_values, for_range. rewrite fill_lookup.
    destruct (0 <=? j)%Z eqn:E1, (j <? 0 + Z.of_nat (Z.to_nat (N - 0)))%Z eqn:E2;
      cbn [andb]; try reflexivity. zbool. lia.
Qed.

Lemma calculate_p_values_grid_witness :
  calculate_p_values two_shells 5 (fun _ => 9) 0%Z = 0 /\
  calculate_p_values two_shells 5 (fun _ => 9) (5 - 1)%Z
  = r_outer two_shells (no_of_shells two_shells - 1)%Z.
Proof.
  assert (H : (2 <= 5)%Z) by lia.
  pose proof (calculate_p_values_grid two_shells 5 (fun _ => 9) H) as G.
  cbv zeta in G. destruct G as (G1 & G2 & _). split; assumption.
Defined.

(** ** The recurrence of a segment *)

Lemma line_walk_no_source (line e : array R) (nu_end : R) (offset : Z) (n : nat) :
  forall j : Z, line_walk line e (fun _ => 0) nu_end offset j n 0 = 0.
Proof.
  induction n as [|n IH]; intros j; cbn [line_walk]; [reflexivity|].
  destruct (Rlt_dec (line j) nu_end); [reflexivity|].
  replace (0 * e (offset + j)%Z + 0) with 0 by ring. apply IH.
Qed.

Lemma line_walk_affine (line e : array R) (nu_end : R) (offset : Z) (n : nat) :
  forall (a : array R) (j : Z) (I : R),
    line_walk line e a nu_end offset j n I
    = line_walk line e a nu_end offset j n 0
      + I * line_walk line e (fun _ => 0) nu_end offset j n 1.
Proof.
  induction n as [|n IH]; intros a j I; cbn [line_walk]; [ring|].
  destruct (Rlt_dec (line j) nu_end); [ring|].
  rewrite (IH a (j + 1)%Z (I * e (offset + j)%Z + a (offset + j)%Z)).
  rewrite (IH a (j + 1)%Z (0 * e (offset + j)%Z + a (offset + j)%Z)).
  rewrite (IH (fun _ => 0) (j + 1)%Z (1 * e (offset + j)%Z + 0)).
  rewrite line_walk_no_source. ring.
Qed.

(** X16.  A segment acts on the intensity as an affine map: what comes out
    is what the segment emits into a dark ray plus the incoming intensity
    times the attenuation of the segment (what a unit intensity becomes when
    the source function is 0). *)
Theorem segment_superposition
    (storage : storage_model_t) (att_S_ul : array R) (nu : R)
    (exp_tau z : array R) (shell_id : array Z) (i : Z) (I : R) :
  segment_body storage att_S_ul nu exp_tau z shell_id i I
  = segment_body storage att_S_ul nu exp_tau z shell_id i 0
    + I * segment_body storage (fun _ => 0) nu exp_tau z shell_id i 1.
Proof. unfold segment_body. apply line_walk_affine. Qed.

Lemma line_walk_nonneg (line e a : array R) (nu_end : R) (offset : Z) (n : nat) :
  forall (j : Z) (I : R),
    (forall c : Z, (j <= c)%Z -> (c < j + Z.of_nat n)%Z ->
       0 <= e (offset + c)%Z /\ 0 <= a (offset + c)%Z) ->
    0 <= I ->
    0 <= line_walk line e a nu_end offset j n I.
Proof.
  induction n as [|n IH]; intros j I Hrow HI; cbn [line_walk]; [exact HI|].
  destruct (Rlt_dec (line j) nu_end); [exact HI|].
  apply IH.
  - intros c H1 H2. apply Hrow; lia.
  - destruct (Hrow j) as [He Ha]; [lia | lia |].
    apply Rplus_le_le_0_compat; [apply Rmult_le_pos|]; assumption.
Qed.

(** X17.  For a positive frequency and a positive boundary temperature, if
    the attenuation and the source function are non-negative on the table
    rows of the shells the record names, the intensity of the ray is
    non-negative. *)
Theorem ray_intensity_nonneg
    (storage : storage_model_t) (iT : R) (att_S_ul : array R) (nu p : R)
    (exp_tau : array R) (size_z : Z) (b : crossings) :
  0 < nu -> 0 < iT ->
  (forall i j : Z,
      (0 <= i)%Z -> (i < size_z - 1)%Z ->
      (0 <= j)%Z -> (j < no_of_lines storage)%Z ->
      0 <= exp_tau (oshell_id b i * no_of_lines storage + j)%Z /\
      0 <= att_S_ul (oshell_id b i * no_of_lines storage + j)%Z) ->
  0 <= ray_intensity storage iT att_S_ul nu p exp_tau size_z b.
Proof.
  intros Hnu HT Hrows. unfold ray_intensity, for_range.
  apply for_loop_invariant.
  - destruct (Rle_dec p (r_inner storage 0%Z)); [|lra].
    unfold intensity_black_body. cbv zeta.
    pose proof (planck_exponent_pos nu iT Hnu HT) as Hx.
    pose proof (exp_increasing _ _ Hx) as He. rewrite exp_0 in He.
    apply Rlt_le, Rdiv_lt_0_compat; [now apply planck_coefficient_pos | lra].
  - intros i I H1 H2 HI. unfold segment_body.
    destruct (line_search_spec (line_list_nu storage) (nu * oz b i)
                (no_of_lines storage)) as (S0 & S1 & _).
    apply line_walk_nonneg; [|exact HI].
    intros c C1 C2. apply Hrows; lia.
Qed.

Lemma ray_intensity_nonneg_witness :
  0 <= ray_intensity two_shells 5000 (fun _ => 1 / 10) 15 1 (fun _ => 1 / 2) 2
         (snd (populate_z two_shells 1 blank)).
Proof.
  apply (ray_intensity_nonneg two_shells 5000 (fun _ => 1 / 10) 15 1
           (fun _ => 1 / 2) 2 (snd (populate_z two_shells 1 blank))); try lra.
  intros i j _ _ _ _. lra.
Defined.

(** X18.  A segment whose window is reversed ([nu * z[i] < nu * z[i+1]])
    crosses no line, whatever the line list. *)
Theorem segment_reversed_window
    (storage : storage_model_t) (att_S_ul : array R) (nu : R)
    (exp_tau z : array R) (shell_id : array Z) (i : Z) (I : R) :
  nu * z i < nu * z (i + 1)%Z ->
  segment_body storage att_S_ul nu exp_tau z shell_id i I = I.
Proof.
  intros Hrev. unfold segment_body.
  destruct (line_search_spec (line_list_nu storage) (nu * z i)
              (no_of_lines storage)) as (S0 & S1 & S2 & S3).
  apply line_walk_no_crossing with (nu_start := nu * z i).
  - intros Hn. apply S3. lia.
  - intros _. lra.
Qed.

Lemma segment_reversed_window_witness :
  segment_body two_shells (fun _ => 1 / 10) 15 (fun _ => 1 / 2)
    (of_list 0 [1; 2]) (fun _ => 0%Z) 0 7 = 7.
Proof.
  apply (segment_reversed_window two_shells (fun _ => 1 / 10) 15
           (fun _ => 1 / 2) (of_list 0 [1; 2]) (fun _ => 0%Z) 0 7).
  cells. lra.
Defined.

(** ** [thread_setup] *)

(** X19.  After the initialisation of a thread the cells [0 .. size_tau-1]
    of [exp_tau] hold [exp (- tau)], a positive number that is at most 1
    when the optical depth is non-negative; the other cells of [exp_tau]
    and the arrays [I_nu], [z] and [shell_id] are as the stack left them. *)
Theorem thread_setup_attenuation
    (storage : storage_model_t) (N : Z) (s : scratch) :
  let size_tau := (no_of_lines storage * no_of_shells storage)%Z in
  let s' := thread_setup storage N s in
  (forall i : Z, (0 <= i)%Z -> (i < size_tau)%Z ->
     exp_tau s' i = exp (- line_lists_tau_sobolevs storage i) /\
     0 < exp_tau s' i /\
     (0 <= line_lists_tau_sobolevs storage i -> exp_tau s' i <= 1)) /\
  (forall i : Z, (i < 0)%Z \/ (size_tau <= i)%Z -> exp_tau s' i = exp_tau s i) /\
  I_nu s' = I_nu s /\ z s' = z s /\ shell_id s' = shell_id s.
Proof.
  intros size_tau s'. split; [|split; [|repeat split]].
  - intros i H0 H1.
    assert (E : exp_tau s' i = exp (- line_lists_tau_sobolevs storage i)).
    { unfold s', thread_setup. cbn [exp_tau]. unfold for_range.
      rewrite fill_lookup. fold size_tau.
      destruct (0 <=? i)%Z eqn:E1,
               (i <? 0 + Z.of_nat (Z.to_nat (size_tau - 0)))%Z eqn:E2;
        cbn [andb]; try reflexivity; zbool; lia. }
    rewrite E. split; [reflexivity|]. split; [apply exp_pos|].
    intros Htau. destruct (Req_dec_T (line_lists_tau_sobolevs storage i) 0)
      as [->|Hne].
    + rewrite Ropp_0, exp_0. lra.
    + rewrite <- exp_0. apply Rlt_le, exp_increasing. lra.
  - intros i Hi. unfold s', thread_setup. cbn [exp_tau]. unfold for_range.
    rewrite fill_lookup. fold size_tau.
    destruct (0 <=? i)%Z eqn:E1,
             (i <? 0 + Z.of_nat (Z.to_nat (size_tau - 0)))%Z eqn:E2;
      cbn [andb]; try reflexivity. zbool. lia.
Qed.

Lemma thread_setup_attenuation_witness :
  exp_tau (thread_setup two_shells 5 (stack_of 9)) 0%Z
  = exp (- line_lists_tau_sobolevs two_shells 0%Z) /\
  0 < exp_tau (thread_setup two_shells 5 (stack_of 9)) 0%Z /\
  (0 <= line_lists_tau_sobolevs two_shells 0%Z ->
   exp_tau (thread_setup two_shells 5 (stack_of 9)) 0%Z <= 1).
Proof.
  apply (proj1 (thread_setup_attenuation two_shells 5 (stack_of 9)));
    simpl; lia.
Defined.

(** ** The loop over impact parameters *)

(** X20.  The loop over impact parameters writes the cells [1 .. N-1] of
    [I_nu] and no other, and leaves [pp] and [exp_tau] as they are. *)
Theorem rays_write_their_cells_only
    (storage : storage_model_t) (iT : R) (att_S_ul : array R) (nu : R)
    (N : Z) (s : scratch) :
  let s' := for_range 1 N (ray_body storage iT att_S_ul nu) s in
  (forall j : Z, (j < 1)%Z \/ (N <= j)%Z -> I_nu s' j = I_nu s j) /\
  pp s' = pp s /\ exp_tau s' = exp_tau s.
Proof.
  unfold for_range.
  apply (for_loop_invariant
           (fun t => (forall j : Z, (j < 1)%Z \/ (N <= j)%Z ->
                        I_nu t j = I_nu s j) /\
                     pp t = pp s /\ exp_tau t = exp_tau s)).
  - repeat split; reflexivity.
  - intros k t H1 H2 (E1 & E2 & E3). repeat split.
    + intros j Hj. rewrite ray_body_I_nu_other by lia. now apply E1.
    + now rewrite ray_body_pp.
    + unfold ray_body. destruct (populate_z _ _ _). exact E3.
Qed.

Lemma rays_write_their_cells_only_witness :
  I_nu (for_range 1 5 (ray_body two_shells 5000 (fun _ => 0) 15)
          (stack_of 9)) 5%Z = I_nu (stack_of 9) 5%Z.
Proof.
  apply (proj1 (rays_write_their_cells_only two_shells 5000 (fun _ => 0) 15 5
                  (stack_of 9))).
  right. lia.
Defined.

(** X21.  On a model with an empty line list every ray keeps its seed: after
    the loop the cell [I_nu[j]] of each ray [1 <= j < N] holds
    [p * intensity_black_body nu iT] when [p = pp[j]] is at most the
    photosphere radius, and 0 otherwise. *)
Theorem lineless_rays
    (storage : storage_model_t) (iT : R) (att_S_ul : array R) (nu : R)
    (N : Z) (s : scratch) (j : Z) :
  no_of_lines storage = 0%Z ->
  (1 <= j)%Z -> (j < N)%Z ->
  I_nu (for_range 1 N (ray_body storage iT att_S_ul nu) s) j
  = (if Rle_dec (pp s j) (r_inner storage 0%Z)
     then intensity_black_body nu iT else 0) * pp s j.
Proof.
  intros Hno Hj1 Hj2. unfold for_range.
  pose proof (for_loop_invariant_at
                (fun i t =>
                   pp t = pp s /\
                   forall c : Z, (1 <= c)%Z -> (c < i)%Z ->
                     I_nu t c
                     = (if Rle_dec (pp s c) (r_inner storage 0%Z)
                        then intensity_black_body nu iT else 0) * pp s c)
                (ray_body storage iT att_S_ul nu) (Z.to_nat (N - 1)) 1 s) as K.
  destruct K as [_ K].
  - split; [reflexivity | intros c H1 H2; lia].
  - intros k t H1 H2 [Epp Ecells]. split; [now rewrite ray_body_pp|].
    intros c C1 C2. destruct (Z.eq_dec c k) as [->|Hne].
    + unfold ray_body.
      destruct (populate_z storage (pp t k)
                  {| oz := z t; oshell_id := shell_id t |}) as [size_z b].
      cbn [I_nu]. rewrite upd_same, no_lines_ray_intensity by assumption.
      now rewrite Epp.
    + rewrite ray_body_I_nu_other by assumption. apply Ecells; lia.
  - apply K; lia.
Qed.

Lemma lineless_rays_witness :
  I_nu (for_range 1 3 (ray_body one_shell 5000 (fun _ => 0) 15)
          (thread_setup one_shell 3 (stack_of 9))) 1%Z
  = (if Rle_dec (pp (thread_setup one_shell 3 (stack_of 9)) 1%Z)
                (r_inner one_shell 0%Z)
     then intensity_black_body 15 5000 else 0)
    * pp (thread_setup one_shell 3 (stack_of 9)) 1%Z.
Proof.
  apply (lineless_rays one_shell 5000 (fun _ => 0) 15 3
           (thread_setup one_shell 3 (stack_of 9)) 1);
    [reflexivity | lia | lia].
Defined.

(** ** The threads and the output array *)

Lemma NoDup_app_disjoint {A : Type} (l1 l2 : list A) (x : A) :
  NoDup (l1 ++ l2) -> In x l1 -> ~ In x l2.
Proof.
  intros Hnd H1 H2. apply in_split in H2. destruct H2 as (a & c & ->).
  rewrite app_assoc in Hnd. apply NoDup_remove_2 in Hnd.
  apply Hnd. apply in_or_app. left. apply in_or_app. now left.
Qed.

(** What a thread leaves in the output array: in the cells of its bins,
    values that depend on the thread alone; elsewhere, what was there. *)
Lemma thread_bins_written (storage : storage_model_t) (iT : R)
    (inu att_S_ul : array R) (N : Z) (bins : list Z) :
  forall s : scratch,
  exists f : Z -> R,
    forall (L : array R) (j : Z),
      (In j bins ->
       snd (fold_left
              (fun st nu_idx => freq_body storage iT inu att_S_ul N nu_idx st)
              bins (s, L)) j = f j) /\
      (~ In j bins ->
       snd (fold_left
              (fun st nu_idx => freq_body storage iT inu att_S_ul N nu_idx st)
              bins (s, L)) j = L j).
Proof.
  induction bins as [|b0 bins IH]; intros s.
  - exists (fun _ => 0). intros L j. split; [intros [] | reflexivity].
  - set (s1 := for_range 1 N (ray_body storage iT att_S_ul (inu b0)) s).
    set (v1 := 8 * M_PI * M_PI *
               trapezoid_integration (I_nu s1)
                 (r_outer storage (no_of_shells storage - 1)%Z / IZR N) N).
    destruct (IH s1) as [f' Hf'].
    exists (fun j => if in_dec Z.eq_dec j bins then f' j else v1).
    intros L j. cbn [fold_left].
    change (freq_body storage iT inu att_S_ul N b0 (s, L))
      with (s1, upd L b0 v1).
    destruct (Hf' (upd L b0 v1) j) as [Hin Hout].
    destruct (in_dec Z.eq_dec j bins) as [Hj|Hj].
    + split; intros H; [now apply Hin|]. exfalso. apply H. now right.
    + rewrite Hout by assumption. split; intros H.
      * destruct H as [->|H]; [apply upd_same | contradiction].
      * apply upd_other. intros ->. apply H. now left.
Qed.

(** X22.  A thread writes the cells of [L] that belong to its bins and no
    other, and what it writes there depends neither on what [L] held nor on
    anything another thread does. *)
Theorem thread_run_owns_its_bins
    (storage : storage_model_t) (iT : R) (inu att_S_ul : array R) (N : Z)
    (th : scratch * list Z) (L1 L2 : array R) (j : Z) :
  (~ In j (snd th) ->
   thread_run storage iT inu att_S_ul N L1 th j = L1 j) /\
  (In j (snd th) ->
   thread_run storage iT inu att_S_ul N L1 th j
   = thread_run storage iT inu att_S_ul N L2 th j).
Proof.
  destruct th as [s0 bins]. cbn [snd]. unfold thread_run.
  destruct (thread_bins_written storage iT inu att_S_ul N bins
              (thread_setup storage N s0)) as [f Hf].
  split; intros H.
  - now apply Hf.
  - rewrite (proj1 (Hf L1 j) H), (proj1 (Hf L2 j) H). reflexivity.
Qed.

Lemma thread_run_owns_its_bins_witness :
  thread_run two_shells 5000 (fun _ => 15) (fun _ => 0) 5 (fun _ => 3)
    (stack_of 9, [0%Z; 2%Z]) 1%Z = 3.
Proof.
  apply (proj1 (thread_run_owns_its_bins two_shells 5000 (fun _ => 15)
                  (fun _ => 0) 5 (stack_of 9, [0%Z; 2%Z])
                  (fun _ => 3) (fun _ => 3) 1)).
  cbn [snd]. intros [H|[H|[]]]; lia.
Defined.

Lemma team_untouched (storage : storage_model_t) (iT : R)
    (inu att_S_ul : array R) (N : Z) (team : list (scratch * list Z)) :
  forall (L : array R) (j : Z),
    ~ In j (concat (map snd team)) ->
    fold_left (thread_run storage iT inu att_S_ul N) team L j = L j.
Proof.
  induction team as [|th team IH]; intros L j Hj; cbn [fold_left].
  - reflexivity.
  - cbn [map concat] in Hj. rewrite IH by (intros H; apply Hj, in_or_app; now right).
    destruct th as [s0 bins]. unfold thread_run.
    destruct (thread_bins_written storage iT inu att_S_ul N bins
                (thread_setup storage N s0)) as [f Hf].
    apply Hf. intros H. apply Hj, in_or_app. now left.
Qed.

Lemma team_owner (storage : storage_model_t) (iT : R)
    (inu att_S_ul : array R) (N : Z) (team : list (scratch * list Z)) :
  forall (L : array R) (th : scratch * list Z) (j : Z),
    NoDup (concat (map snd team)) ->
    In th team -> In j (snd th) ->
    fold_left (thread_run storage iT inu att_S_ul N) team L j
    = thread_run storage iT inu att_S_ul N (fun _ => 0) th j.
Proof.
  induction team as [|t team IH]; intros L th j Hnd Hth Hj; [contradiction|].
  cbn [fold_left]. cbn [map concat] in Hnd.
  destruct (in_dec Z.eq_dec j (concat (map snd team))) as [Hrest|Hrest].
  - destruct Hth as [->|Hth].
    + exfalso. exact (NoDup_app_disjoint _ _ j Hnd Hj Hrest).
    + apply IH; [now apply NoDup_app_remove_l in Hnd | assumption | assumption].
  - rewrite team_untouched by assumption.
    destruct Hth as [->|Hth].
    + destruct th as [s0 bins]. cbn [snd] in Hj. unfold thread_run.
      destruct (thread_bins_written storage iT inu att_S_ul N bins
                  (thread_setup storage N s0)) as [f Hf].
      rewrite (proj1 (Hf L j) Hj), (proj1 (Hf (fun _ => 0) j) Hj). reflexivity.
    + exfalso. apply Hrest. apply in_concat. exists (snd th).
      split; [now apply in_map | assumption].
Qed.

(** X23.  A frequency bin that the work-sharing loop hands to no thread
    keeps the 0 that [calloc] put in the output array. *)
Theorem unassigned_bins_stay_zero
    (storage : storage_model_t) (iT : R) (inu att_S_ul : array R) (N : Z)
    (team : list (scratch * list Z)) (j : Z) :
  ~ In j (concat (map snd team)) ->
  formal_integral_spectrum storage iT inu att_S_ul N team j = 0.
Proof.
  intros Hj. unfold formal_integral_spectrum. now rewrite team_untouched.
Qed.

Lemma unassigned_bins_stay_zero_witness :
  formal_integral_spectrum two_shells 5000 (fun _ => 15) (fun _ => 0) 5
    [(stack_of 9, [0%Z]); (stack_of 4, [1%Z])] 2%Z = 0.
Proof.
  apply (unassigned_bins_stay_zero two_shells 5000 (fun _ => 15) (fun _ => 0) 5
           [(stack_of 9, [0%Z]); (stack_of 4, [1%Z])] 2).
  cbn [map snd concat app]. intros [H|[H|[]]]; lia.
Defined.

(** X24.  When no bin is handed out twice, the output array does not depend
    on the order in which the threads of the team are taken. *)
Theorem spectrum_independent_of_thread_order
    (storage : storage_model_t) (iT : R) (inu att_S_ul : array R) (N : Z)
    (team team' : list (scratch * list Z)) (j : Z) :
  Permutation team team' ->
  NoDup (concat (map snd team)) ->
  formal_integral_spectrum storage iT inu att_S_ul N team j
  = formal_integral_spectrum storage iT inu att_S_ul N team' j.
Proof.
  intros Hperm Hnd. unfold formal_integral_spectrum.
  assert (Hbins : Permutation (concat (map snd team)) (concat (map snd team'))).
  { rewrite <- !flat_map_concat_map. now apply Permutation_flat_map. }
  assert (Hnd' : NoDup (concat (map snd team')))
    by (eapply Permutation_NoDup; eassumption).
  destruct (in_dec Z.eq_dec j (concat (map snd team))) as [Hj|Hj].
  - apply in_concat in Hj. destruct Hj as (bins & Hb & Hjb).
    apply in_map_iff in Hb. destruct Hb as (th & <- & Hth).
    rewrite (team_owner storage iT inu att_S_ul N team _ th j Hnd Hth Hjb).
    rewrite (team_owner storage iT inu att_S_ul N team' _ th j Hnd'
               (Permutation_in _ Hperm Hth) Hjb).
    reflexivity.
  - rewrite !team_untouched; [reflexivity | | assumption].
    intros H. apply Hj. eapply Permutation_in; [|exact H].
    now apply Permutation_sym.
Qed.

Lemma spectrum_independent_of_thread_order_witness :
  formal_integral_spectrum two_shells 5000 (fun _ => 15) (fun _ => 0) 5
    [(stack_of 9, [0%Z]); (stack_of 4, [1%Z])] 1%Z
  = formal_integral_spectrum two_shells 5000 (fun _ => 15) (fun _ => 0) 5
      [(stack_of 4, [1%Z]); (stack_of 9, [0%Z])] 1%Z.
Proof.
  apply (spectrum_independent_of_thread_order two_shells 5000 (fun _ => 15)
           (fun _ => 0) 5
           [(stack_of 9, [0%Z]); (stack_of 4, [1%Z])]
           [(stack_of 4, [1%Z]); (stack_of 9, [0%Z])] 1).
  - apply perm_swap.
  - cbn [map snd concat app]. constructor.
    + intros [H|[]]. lia.
    + constructor; [intros [] | constructor].
Defined.

(** ** The integration step of the driver *)

(** X25.  The samples are spaced by [R_max / (N - 1)] and the driver
    integrates them with the step [R_max / N]: for [N >= 2] the luminosity
    it stores is [(N - 1) / N] times [8 * M_PI^2] times the trapezoid
    integral of the ray intensities over the sample grid. *)
Theorem luminosity_step_mismatch
    (storage : storage_model_t) (iT : R) (inu att_S_ul : array R) (N : Z)
    (nu_idx : Z) (s0 : scratch) (L : array R) :
  let s := thread_setup storage N s0 in
  let s' := for_range 1 N (ray_body storage iT att_S_ul (inu nu_idx)) s in
  (2 <= N)%Z ->
  snd (freq_body storage iT inu att_S_ul N nu_idx (s, L)) nu_idx
  = IZR (N - 1) / IZR N
    * (8 * M_PI * M_PI
       * trapezoid_integration (I_nu s') (pp s 1%Z - pp s 0%Z) N).
Proof.
  intros s s' HN. unfold freq_body. cbn [snd]. rewrite upd_same. fold s'.
  assert (H1 : 0 < IZR (N - 1)) by (apply IZR_lt; lia).
  assert (H2 : 0 < IZR N) by (apply IZR_lt; lia).
  replace (pp s 1%Z - pp s 0%Z)
    with (r_outer storage (no_of_shells storage - 1)%Z / IZR (N - 1))
    by (unfold s; cbn [thread_setup pp];
        rewrite !calculate_p_values_lookup by lia; ring).
  unfold trapezoid_integration.
  set (X := for_range 1 (N - 1) (fun idx result => result + I_nu s' idx)
              ((I_nu s' 0%Z + I_nu s' (N - 1)%Z) / 2)).
  field. split; lra.
Qed.

Lemma luminosity_step_mismatch_witness :
  snd (freq_body two_shells 5000 (fun _ => 15) (fun _ => 0) 5 0
         (thread_setup two_shells 5 (stack_of 9), fun _ => 0)) 0%Z
  = IZR (5 - 1) / IZR 5
    * (8 * M_PI * M_PI
       * trapezoid_integration
           (I_nu (for_range 1 5 (ray_body two_shells 5000 (fun _ => 0) 15)
                    (thread_setup two_shells 5 (stack_of 9))))
           (pp (thread_setup two_shells 5 (stack_of 9)) 1%Z
            - pp (thread_setup two_shells 5 (stack_of 9)) 0%Z) 5).
Proof.
  apply (luminosity_step_mismatch two_shells 5000 (fun _ => 15) (fun _ => 0) 5 0
           (stack_of 9) (fun _ => 0)).
  lia.
Defined.

(** ** [trapezoid_integration] without samples *)

(** X26.  With [N <= 0] the rule reads the cell [N - 1], which lies before
    the array: the result moves with what that cell holds. *)
Theorem trapezoid_reads_before_array (arr : array R) (h v : R) (N : Z) :
  (N <= 0)%Z ->
  trapezoid_integration (upd arr (N - 1)%Z v) h N
  - trapezoid_integration arr h N
  = (v - arr (N - 1)%Z) / 2 * h.
Proof.
  intros HN. unfold trapezoid_integration, for_range.
  replace (Z.to_nat (N - 1 - 1)) with 0%nat by lia. cbn [for_loop].
  rewrite upd_same, upd_other by lia. field.
Qed.

Lemma trapezoid_reads_before_array_witness :
  trapezoid_integration (upd (fun _ => 0) (0 - 1)%Z 6) 1 0
  - trapezoid_integration (fun _ => 0) 1 0
  = (6 - 0) / 2 * 1.
Proof.
  apply (trapezoid_reads_before_array (fun _ => 0) 1 6 0). lia.
Defined.
